(** * Sampling core of the MYULA and SK-ROCK notebooks

    A shallow embedding of the two notebooks of the repository
    (the proximal Langevin tour and [SKROCK_notebook.ipynb]) and the
    properties of their sampling core.

    Conventions of the embedding.
    - Python floats and the entries of torch tensors are read as real
      numbers ([R]); rounding is not modelled.  A tensor of a fixed shape
      is a function from its index set to [R], and the arithmetic of
      torch is pointwise, with scalars broadcast.
    - The functions imported from [sampling_tools], the observation and
      the noise scale are inputs of the development: they are gathered in
      the record [sampling_tools] and in section variables.
    - The ambient random generator of torch is a stream of arrays
      [randn : nat -> Tensor]; the state of the interpreter that the
      kernels change is the number of arrays drawn so far.  A second
      counter records how often the posterior gradient was evaluated.
    - [math.sqrt] raises [ValueError] on a negative argument; an unbound
      variable raises [NameError].  Computations that may raise live in
      the monad [M].
    - Division is the division of [R].  Where Python divides by zero or
      numpy returns nan ([nStages = 0], [Lipschitz_U = 0], [sigma = 0],
      and [eta <= 0], where [w0 <= 1]) the embedding has no counterpart:
      it is faithful for [nStages >= 1], [eta > 0], [Lipschitz_U <> 0]
      and [sigma <> 0]. *)

From Stdlib Require Import Reals ZArith List Lia Lra Psatz Bool FunctionalExtensionality.
Import ListNotations.

(** ** The interpreter: exceptions, ambient state, and the monad *)

Module Py.

Inductive exn : Type :=
| ValueError   (* math domain error *)
| NameError.   (* a variable read before its first assignment *)

(** Ambient state threaded through the kernels. *)
Record World : Type := mkWorld {
  rng_draws : nat;   (* arrays drawn from torch's generator so far *)
  grad_evals : nat   (* evaluations of the posterior gradient so far *)
}.

Inductive outcome (V : Type) : Type :=
| Ok (v : V) (w : World)
| Raise (e : exn).
Arguments Ok {V} v w.
Arguments Raise {V} e.

Definition M (V : Type) : Type := World -> outcome V.

Definition ret {V} (v : V) : M V := fun w => Ok v w.

Definition bind {V W} (m : M V) (k : V -> M W) : M W :=
  fun w => match m w with
           | Ok v w' => k v w'
           | Raise e => Raise e
           end.

Definition raise {V} (e : exn) : M V := fun _ => Raise e.

Definition drew (w : World) : World :=
  mkWorld (S (rng_draws w)) (grad_evals w).

Definition ticked (w : World) : World :=
  mkWorld (rng_draws w) (S (grad_evals w)).

(** [for js in l: st = body(js, st)] *)
Fixpoint for_loop {St} (l : list Z) (body : Z -> St -> M St) (st : St) : M St :=
  match l with
  | [] => ret st
  | i :: l' => bind (body i st) (for_loop l' body)
  end.

(** [range(lo, hi)] *)
Definition range (lo hi : Z) : list Z :=
  map (fun k => (lo + Z.of_nat k)%Z) (seq 0 (Z.to_nat (hi - lo))).

(** [math.sqrt] *)
Definition math_sqrt (x : R) : M R :=
  if Rlt_dec x 0 then raise ValueError else ret (sqrt x).

(** [np.int64(a / b)] for Python integers [a], [b]: the quotient, truncated. *)
Definition int64_div (a b : Z) : Z := Z.quot a b.

End Py.
Import Py.

Declare Scope py_scope.
Notation "x <- m ;; k" := (bind m (fun x => k))
  (at level 61, m at next level, right associativity) : py_scope.
Open Scope py_scope.

(** ** Tensors with real entries *)

Section TensorArith.
Context {Idx : Type}.
Local Open Scope R_scope.

Definition tadd (a b : Idx -> R) : Idx -> R := fun i => a i + b i.
Definition tsub (a b : Idx -> R) : Idx -> R := fun i => a i - b i.
Definition tmul (a b : Idx -> R) : Idx -> R := fun i => a i * b i.
Definition smul (c : R) (a : Idx -> R) : Idx -> R := fun i => c * a i.
Definition sdiv (a : Idx -> R) (c : R) : Idx -> R := fun i => a i / c.
End TensorArith.

Declare Scope tensor_scope.
Delimit Scope tensor_scope with T.
Infix "+" := tadd : tensor_scope.
Infix "-" := tsub : tensor_scope.
Infix "*:" := smul (at level 40, left associativity) : tensor_scope.
Infix "/:" := sdiv (at level 40, left associativity) : tensor_scope.

(** ** The imported tools *)

(** The dictionary passed to [chambolle_prox_TV]. *)
Record prox_options : Type := mkOpts {
  lambda : R;
  MaxIter : Z
}.

(** [from sampling_tools import *], together with the result of
    [blur_operators] and the torch functions the notebooks call. *)
Record sampling_tools (Idx G : Type) : Type := mkTools {
  A : (Idx -> R) -> (Idx -> R);
  AT : (Idx -> R) -> (Idx -> R);
  AAT_norm : R;
  Grad_Image : (Idx -> R) -> G;
  tv : G -> R;
  chambolle_prox_TV : (Idx -> R) -> prox_options -> (Idx -> R);
  matrix_norm_fro : (Idx -> R) -> R;
  NRMSE : (Idx -> R) -> (Idx -> R) -> R;
  PSNR : (Idx -> R) -> (Idx -> R) -> R;
  SSIM : (Idx -> R) -> (Idx -> R) -> R;
  fft2_abs : (Idx -> R) -> (Idx -> R);
  fft2_real : (Idx -> R) -> (Idx -> R)
}.
Arguments A {Idx G}.
Arguments AT {Idx G}.
Arguments AAT_norm {Idx G}.
Arguments Grad_Image {Idx G}.
Arguments tv {Idx G}.
Arguments chambolle_prox_TV {Idx G}.
Arguments matrix_norm_fro {Idx G}.
Arguments NRMSE {Idx G}.
Arguments PSNR {Idx G}.
Arguments SSIM {Idx G}.
Arguments fft2_abs {Idx G}.
Arguments fft2_real {Idx G}.

(** The same tools with another proximal solver, resp. another penalty. *)
Definition with_prox {Idx G} (E : sampling_tools Idx G)
    (p : (Idx -> R) -> prox_options -> (Idx -> R)) : sampling_tools Idx G :=
  mkTools Idx G (A E) (AT E) (AAT_norm E) (Grad_Image E) (tv E) p
          (matrix_norm_fro E) (NRMSE E) (PSNR E) (SSIM E) (fft2_abs E) (fft2_real E).

Definition with_penalty {Idx G G'} (E : sampling_tools Idx G)
    (gi : (Idx -> R) -> G') (t : G' -> R) : sampling_tools Idx G' :=
  mkTools Idx G' (A E) (AT E) (AAT_norm E) gi t (chambolle_prox_TV E)
          (matrix_norm_fro E) (NRMSE E) (PSNR E) (SSIM E) (fft2_abs E) (fft2_real E).

(** ** Likelihood, prior and posterior oracles (cells shared by both notebooks) *)

Section Oracles.
Context {Idx G : Type}.
Variable E : sampling_tools Idx G.
Variable y : Idx -> R.       (* the observation *)
Variable sigma : R.          (* the noise scale *)
Local Open Scope R_scope.
#[local] Abbreviation Tensor := (Idx -> R).

(** [f = lambda x,A : (matrix_norm(y-A(x), ord='fro')**2.0)/(2.0*sigma**2)] *)
Definition f (x : Tensor) (A0 : Tensor -> Tensor) : R :=
  (matrix_norm_fro E (y - A0 x)%T) ^ 2 / (2 * sigma ^ 2).

(** [gradf = lambda x,A,AT : AT(A(x)-y)/sigma**2] *)
Definition gradf (x : Tensor) (A0 AT0 : Tensor -> Tensor) : Tensor :=
  (AT0 (A0 x - y) /: (sigma ^ 2))%T.

(** [L_y = AAT_norm/(sigma**2)] *)
Definition L_y : R := AAT_norm E / (sigma ^ 2).

(** [theta = 0.047*255.] *)
Definition theta : R := 0.047 * 255.

(** [g_fun_theta = lambda x : theta*tv(Grad_Image(x))] *)
Definition g_fun_theta (x : Tensor) : R := theta * tv E (Grad_Image E x).

Definition lambda_prox : R := 1 / L_y.
Definition lambd_frac : R := 0.99.
Definition lambd : R := lambda_prox * lambd_frac.

(** [proxg = lambda x: chambolle_prox_TV(x,{'lambda' : theta*lambd, 'MaxIter' : 25})] *)
Definition proxg (x : Tensor) : Tensor :=
  chambolle_prox_TV E x (mkOpts (theta * lambd) 25).

(** [gradg = lambda x: (x -proxg(x))/lambd] *)
Definition gradg (x : Tensor) : Tensor := ((x - proxg x) /: lambd)%T.

(** [logPi = lambda z:  (- f(z,A) - g_fun_theta(z))] *)
Definition logPi (z : Tensor) : R := - f z (A E) - g_fun_theta z.

(** [grad_f_g = lambda x: gradf(x,A,AT) + gradg(x)] *)
Definition grad_f_g (x : Tensor) : Tensor := (gradf x (A E) (AT E) + gradg x)%T.

(** In the SK-ROCK notebook the same cells read [A] and [AT] from the
    globals: [log_pi = lambda z: (- f(z) - g_fun_theta(z))]. *)
Definition log_pi (z : Tensor) : R := - f z (A E) - g_fun_theta z.

(** [L_g = 1/lambd], [L = L_y+L_g], [delta = 1/L] *)
Definition L_g : R := 1 / lambd.
Definition L : R := L_y + L_g.
Definition delta : R := 1 / L.
End Oracles.

(** ** The kernels *)

Section Kernels.
Context {Idx : Type}.
Variable randn : nat -> (Idx -> R).   (* the arrays torch's generator yields *)
Local Open Scope R_scope.
#[local] Abbreviation Tensor := (Idx -> R).

(** [torch.randn_like(X)] *)
Definition randn_like (X : Tensor) : M Tensor :=
  fun w => Ok (randn (rng_draws w)) (drew w).

(** A call [gradU(X)] of the posterior gradient. *)
Definition eval_grad (gradU : Tensor -> Tensor) (X : Tensor) : M Tensor :=
  fun w => Ok (gradU X) (ticked w).

(** [def ULA_kernel(X, delta)], with [grad_f_g] the posterior gradient in scope:
    [return X - delta * grad_f_g(X) + math.sqrt(2*delta) * torch.randn_like(X)] *)
Definition ULA_kernel (grad_f_g : Tensor -> Tensor) (X : Tensor) (delta : R) : M Tensor :=
  g <- eval_grad grad_f_g X ;;
  r <- math_sqrt (2 * delta) ;;
  z <- randn_like X ;;
  ret (X - delta *: g + r *: z)%T.
End Kernels.

(** ** The SK-ROCK kernel *)

(** [np.arccosh] on its real domain. *)
Definition arccosh (x : R) : R := ln (x + sqrt (x ^ 2 - 1)).

(** [T_s = lambda s,x: np.cosh(s*np.arccosh(x))] *)
Definition T_s (s : Z) (x : R) : R := cosh (IZR s * arccosh x).

(** [T_prime_s = lambda s,x: s*np.sinh(s*np.arccosh(x))/np.sqrt(x**2 -1)] *)
Definition T_prime_s (s : Z) (x : R) : R :=
  (IZR s * sinh (IZR s * arccosh x) / sqrt (x ^ 2 - 1))%R.

Section SKROCKKernel.
Context {Idx : Type}.
Variable randn : nat -> (Idx -> R).
Local Open Scope R_scope.
#[local] Abbreviation Tensor := (Idx -> R).

(** The local variables of [SKROCK_kernel] that depend on the
    parameters only. *)
Definition denNStag (eta : R) : R := 2 - (4 / 3) * eta.

Definition rhoSKROCK (nStages : Z) (eta : R) : R :=
  ((IZR nStages - 0.5) ^ 2) * denNStag eta - 1.5.

Definition dtSKROCK (Lipschitz_U : R) (nStages : Z) (eta dt_perc : R) : R :=
  dt_perc * rhoSKROCK nStages eta / Lipschitz_U.

Definition w0 (nStages : Z) (eta : R) : R := 1 + eta / (IZR nStages ^ 2).

Definition w1 (nStages : Z) (eta : R) : R :=
  T_s nStages (w0 nStages eta) / T_prime_s nStages (w0 nStages eta).

Definition mu1 (nStages : Z) (eta : R) : R := w1 nStages eta / w0 nStages eta.

Definition nu1 (nStages : Z) (eta : R) : R := IZR nStages * w1 nStages eta / 2.

Definition kappa1 (nStages : Z) (eta : R) : R :=
  IZR nStages * (w1 nStages eta / w0 nStages eta).

(** The body of the inner loop: one pass for stage [js], on the pair
    [(Xts, XtsMinus2)]. *)
Definition stage (Lipschitz_U : R) (nStages : Z) (eta dt_perc : R)
    (gradU : Tensor -> Tensor) (js : Z) (st : Tensor * Tensor) : M (Tensor * Tensor) :=
  let '(Xts, XtsMinus2) := st in
  let XprevSMinus2 := Xts in
  let mu := 2 * w1 nStages eta * T_s (js - 1) (w0 nStages eta) / T_s js (w0 nStages eta) in
  let nu := 2 * w0 nStages eta * T_s (js - 1) (w0 nStages eta) / T_s js (w0 nStages eta) in
  let kappa := 1 - nu in
  g <- eval_grad gradU Xts ;;
  let Xts' := ((- mu * dtSKROCK Lipschitz_U nStages eta dt_perc) *: g
               + nu *: Xts + kappa *: XtsMinus2)%T in
  ret (Xts', XprevSMinus2).

(** [def SKROCK_kernel(X, Lipschitz_U, nStages, eta, dt_perc, gradU)] *)
Definition SKROCK_kernel (X : Tensor) (Lipschitz_U : R) (nStages : Z)
    (eta dt_perc : R) (gradU : Tensor -> Tensor) : M Tensor :=
  let dt := dtSKROCK Lipschitz_U nStages eta dt_perc in
  r <- math_sqrt (2 * dt) ;;
  z <- randn_like randn X ;;
  let Q := (r *: z)%T in
  let XtsMinus2 := X in
  g <- eval_grad gradU (X + nu1 nStages eta *: Q)%T ;;
  let Xts := (X - (mu1 nStages eta * dt) *: g + kappa1 nStages eta *: Q)%T in
  st <- for_loop (range 2 (nStages + 1))
                 (stage Lipschitz_U nStages eta dt_perc gradU) (Xts, XtsMinus2) ;;
  ret (fst st).

(** *** The recursion as the specification words it *)

(** Specification, section 4.5, steps 1 and 2: stiffness ratio, step size
    and coefficients. *)
Definition ell_s (s : Z) (eta : R) : R :=
  (IZR s - 0.5) ^ 2 * (2 - 4 * eta / 3) - 1.5.

Definition delta_s (L : R) (s : Z) (eta alpha : R) : R := alpha * ell_s s eta / L.

Definition omega0 (s : Z) (eta : R) : R := 1 + eta / (IZR s) ^ 2.

(** Specification, step 2: [T_j(x) = cosh(j arccosh x)] and
    [T_s'(x) = s sinh(s arccosh x) / sqrt(x^2-1)]. *)
Definition cheb (j : Z) (x : R) : R := cosh (IZR j * arccosh x).

Definition cheb' (s : Z) (x : R) : R :=
  IZR s * sinh (IZR s * arccosh x) / sqrt (x ^ 2 - 1).

Definition omega1 (s : Z) (eta : R) : R :=
  cheb s (omega0 s eta) / cheb' s (omega0 s eta).

Definition mu_j (s : Z) (eta : R) (j : Z) : R :=
  2 * omega1 s eta * cheb (j - 1) (omega0 s eta) / cheb j (omega0 s eta).

Definition nu_j (s : Z) (eta : R) (j : Z) : R :=
  2 * omega0 s eta * cheb (j - 1) (omega0 s eta) / cheb j (omega0 s eta).

Definition kappa_j (s : Z) (eta : R) (j : Z) : R := 1 - nu_j s eta j.

(** Specification, step 4 (stage 1), with [mu_1 = omega_1/omega_0],
    [nu_1 = s omega_1/2], [kappa_1 = s omega_1/omega_0]:
    [K_1 = X - mu_1 delta gradU(X + nu_1 Q) + kappa_1 Q]. *)
Definition K_1 (s : Z) (eta dlt : R) (gradU : Tensor -> Tensor) (X Q : Tensor) : Tensor :=
  (X - (omega1 s eta / omega0 s eta * dlt) *: gradU (X + (IZR s * omega1 s eta / 2) *: Q)
   + (IZR s * omega1 s eta / omega0 s eta) *: Q)%T.

(** Specification, step 5: [K_0 = X], [K_1] as above, and for [j >= 2]
    [K_j = - mu_j delta gradU(K_{j-1}) + nu_j K_{j-1} + kappa_j K_{j-2}]. *)
Fixpoint K (s : Z) (eta dlt : R) (gradU : Tensor -> Tensor) (X Q : Tensor) (j : nat) : Tensor :=
  match j with
  | O => X
  | S j1 =>
      match j1 with
      | O => K_1 s eta dlt gradU X Q
      | S j2 =>
          ((- mu_j s eta (Z.of_nat j) * dlt) *: gradU (K s eta dlt gradU X Q j1)
           + nu_j s eta (Z.of_nat j) *: K s eta dlt gradU X Q j1
           + kappa_j s eta (Z.of_nat j) *: K s eta dlt gradU X Q j2)%T
      end
  end.

End SKROCKKernel.

(** ** Streaming accumulator *)

(** The tensor arithmetic the accumulator needs. *)
Class TensorOps (T : Type) : Type := mkTensorOps {
  t_add : T -> T -> T;
  t_sub : T -> T -> T;
  t_mul : T -> T -> T;
  t_div_int : T -> Z -> T;
  t_zeros_like : T -> T
}.

#[export] Instance RTensorOps (Idx : Type) : TensorOps (Idx -> R) :=
  mkTensorOps (Idx -> R) tadd tsub tmul
              (fun a k => sdiv a (IZR k)) (fun _ _ => 0%R).

Section Welford.
Context {T : Type} {Hops : TensorOps T}.

(** Modelled from the spec: the [welford] class of [sampling_tools], which
    the notebooks import and whose source is not part of them.  Section 3
    gives its state (count [n], running mean, running sum of squared
    deviations [M2]); section 4.6 gives its operations: [update]
    incorporates one observation, [get_mean] reads the mean.  The
    constructor takes the first observation. *)
Record welford_t : Type := mkWelford {
  w_n : Z;
  w_mean : T;
  w_M2 : T
}.

(** Modelled from the spec: the constructor [welford(x)], which is not
    among the sources; it holds the one observation [x]. *)
Definition welford (x : T) : welford_t := mkWelford 1 x (t_zeros_like x).

(** Modelled from the spec: the method [update] of [welford], which is not
    among the sources; one more observation, by Welford's recurrence. *)
Definition update (a : welford_t) (x : T) : welford_t :=
  let n' := (w_n a + 1)%Z in
  let mean' := t_add (w_mean a) (t_div_int (t_sub x (w_mean a)) n') in
  mkWelford n' mean' (t_add (w_M2 a) (t_mul (t_sub x (w_mean a)) (t_sub x mean'))).

(** Modelled from the spec: the method [get_mean] of [welford], which is
    not among the sources. *)
Definition get_mean (a : welford_t) : T := w_mean a.
End Welford.
Arguments welford_t T : clear implicits.

(** ** The sampling loop *)

(** The loops of the two notebooks are the same text up to the kernel
    called, the name of the log-posterior ([logPi], [log_pi]), and the
    accumulator [var_C], which only the SK-ROCK loop builds (at the end of
    the burn-in) and updates (when a state is retained).  The loop is
    embedded once, over the kernel, the tensor type and these two hooks;
    [MYULA_body] and [SKROCK_body] below are its two instances. *)

Module Sampler.
Section Loop.
Context {T S Ex : Type} {Hops : TensorOps T}.
Variable kernel : T -> M T.              (* [ULA_kernel(.,delta)] or [SKROCK_kernel(.,L,s,eta,dt_perc,grad_f_g)] *)
Variable fft2_abs : T -> T.              (* [torch.fft.fft2(.).abs()] *)
Variables NRMSE PSNR SSIM : T -> T -> S.
Variable logPi : T -> S.
Variable x : T.                          (* the ground truth *)
Variable init_extra : T -> Ex.           (* SK-ROCK only: [var_C = welford(torch.real(torch.fft.fft2(X)))] *)
Variable thin_extra : Ex -> T -> Ex.     (* SK-ROCK only: [var_C.update(torch.real(torch.fft.fft2(X)))] *)
Variables burnin thinning_step : Z.

(** The variables bound at the end of the burn-in. *)
Record stats : Type := mkStats {
  post_meanvar : welford_t T;
  absfouriercoeff : welford_t T;
  var_C : Ex;
  count : Z
}.

(** The variables of the loop. *)
Record loop_state : Type := mkLoop {
  X : T;
  post : option stats;
  nrmse_values : list S;
  psnr_values : list S;
  ssim_values : list S;
  log_pi_trace : list S;
  MC_X : list T
}.

(** The cells before the loop: [X = y.clone()], empty lists. *)
Definition init_state (y : T) : loop_state := mkLoop y None [] [] [] [] [].

(** The body of [for i_x in tqdm(range(...))]. *)
Definition body (i_x : Z) (st : loop_state) : M loop_state :=
  X' <- kernel (X st) ;;
  if (i_x =? burnin)%Z then
    ret (mkLoop X'
           (Some (mkStats (welford X') (welford (fft2_abs X')) (init_extra X') 0))
           (nrmse_values st) (psnr_values st) (ssim_values st)
           (log_pi_trace st) (MC_X st))
  else if (i_x >? burnin)%Z then
    match post st with
    | None => raise NameError
    | Some ps =>
        let pm := update (post_meanvar ps) X' in
        let af := update (absfouriercoeff ps) (fft2_abs X') in
        let current_mean := get_mean pm in
        let nrmse' := nrmse_values st ++ [NRMSE x current_mean] in
        let psnr' := psnr_values st ++ [PSNR x current_mean] in
        let ssim' := ssim_values st ++ [SSIM x current_mean] in
        let log_pi' := log_pi_trace st ++ [logPi X'] in
        if (count ps =? thinning_step - 1)%Z then
          ret (mkLoop X' (Some (mkStats pm af (thin_extra (var_C ps) X') 0))
                      nrmse' psnr' ssim' log_pi' (MC_X st ++ [X']))
        else
          ret (mkLoop X' (Some (mkStats pm af (var_C ps) (count ps + 1)))
                      nrmse' psnr' ssim' log_pi' (MC_X st))
    end
  else
    ret (mkLoop X' (post st) (nrmse_values st) (psnr_values st) (ssim_values st)
                (log_pi_trace st) (MC_X st)).

(** The loop over [range(N)], from the initial cells. *)
Definition sampling_loop (N : Z) (y : T) : M loop_state :=
  for_loop (range 0 N) body (init_state y).

End Loop.
End Sampler.

(** [thinning_step = np.int64(maxit/n_samples)] *)
Definition thinning_step (maxit n_samples : Z) : Z := int64_div maxit n_samples.

(** ** The two drivers *)

Section Notebooks.
Context {Idx G : Type}.
Variable E : sampling_tools Idx G.
Variable y : Idx -> R.                (* the observation; the chain starts at [y.clone()] *)
Variable sigma : R.
Variable x : Idx -> R.                (* the ground truth image *)
Variable randn : nat -> (Idx -> R).

(** The body of the loop of the proximal Langevin notebook, with
    [X = ULA_kernel(X, delta)]; it has no [var_C]. *)
Definition MYULA_body (burnin step : Z)
  : Z -> Sampler.loop_state (T:=Idx -> R) (S:=R) (Ex:=unit) -> M Sampler.loop_state :=
  Sampler.body
    (fun X => ULA_kernel randn (grad_f_g E y sigma) X (delta E sigma))
    (fft2_abs E) (NRMSE E) (PSNR E) (SSIM E) (logPi E y sigma) x
    (fun _ => tt) (fun u _ => u) burnin step.

(** [N] passes of that loop from the initial cells. *)
Definition MYULA_loop (burnin step N : Z) : M Sampler.loop_state :=
  for_loop (range 0 N) (MYULA_body burnin step) (Sampler.init_state y).

(** The run of the notebook: [for i_x in tqdm(range(maxit))]. *)
Definition MYULA_sampling (maxit burnin n_samples : Z) : M Sampler.loop_state :=
  MYULA_loop burnin (thinning_step maxit n_samples) maxit.

(** The body of the loop of the SK-ROCK notebook, with
    [X = SKROCK_kernel(X, L, s, eta, dt_perc, grad_f_g)]. *)
Definition SKROCK_body (s : Z) (eta dt_perc : R) (burnin step : Z)
  : Z -> Sampler.loop_state (T:=Idx -> R) (S:=R) (Ex:=welford_t (Idx -> R))
    -> M Sampler.loop_state :=
  Sampler.body
    (fun X => SKROCK_kernel randn X (L E sigma) s eta dt_perc (grad_f_g E y sigma))
    (fft2_abs E) (NRMSE E) (PSNR E) (SSIM E) (log_pi E y sigma) x
    (fun X => welford (fft2_real E X)) (fun vc X => update vc (fft2_real E X))
    burnin step.

Definition SKROCK_loop (s : Z) (eta dt_perc : R) (burnin step N : Z)
  : M Sampler.loop_state :=
  for_loop (range 0 N) (SKROCK_body s eta dt_perc burnin step) (Sampler.init_state y).

(** The run of the notebook: [for i_x in tqdm(range(maxit+burnin))]. *)
Definition SKROCK_sampling (maxit burnin n_samples : Z) (s : Z) (eta dt_perc : R)
  : M Sampler.loop_state :=
  SKROCK_loop s eta dt_perc burnin (thinning_step maxit n_samples) (maxit + burnin).

(** *** The proximal Langevin transition as the specification words it *)

(** Sections 4.2 and 4.3: [grad g_lambda (X) = (X - prox(X)) / lambda] and
    [grad log p (X) = - grad f (X) - theta * grad g_lambda (X)]. *)
Definition grad_log_p_spec (X : Idx -> R) : Idx -> R :=
  fun i => (- gradf y sigma X (A E) (AT E) i - theta * gradg E sigma X i)%R.

(** Section 4.4: [X' = X + delta * grad log p (X) + sqrt(2 delta) * Z]. *)
Definition ULA_spec (X : Idx -> R) (dlt : R) (Z : Idx -> R) : Idx -> R :=
  (X + dlt *: grad_log_p_spec X + sqrt (2 * dlt) *: Z)%T.

End Notebooks.

(** The constants of the cells before the loops. *)
Module MYULA.
Definition maxit : Z := 10000.
Definition burnin : Z := Z.quot (maxit * 5) 100.     (* [np.int64(maxit*0.05)] *)
Definition n_samples : Z := 2000.
End MYULA.

Module SKROCK.
Definition maxit : Z := 1000.
Definition burnin : Z := Z.quot (maxit * 3) 10.      (* [np.int64(maxit*0.3)] *)
Definition n_samples : Z := 500.
Definition s : Z := 10.
Definition eta : R := 0.05%R.
Definition dt_perc : R := 0.99%R.
End SKROCK.

(** ** What the loop has recorded after [i] iterations *)

Definition loop_counts {T S Ex : Type} (burnin step i : Z)
    (st : Sampler.loop_state (T:=T) (S:=S) (Ex:=Ex)) : Prop :=
  if (i <=? burnin)%Z then
    Sampler.post st = None /\ Sampler.nrmse_values st = [] /\
    Sampler.psnr_values st = [] /\ Sampler.ssim_values st = [] /\
    Sampler.log_pi_trace st = [] /\ Sampler.MC_X st = []
  else
    exists ps, Sampler.post st = Some ps /\
      w_n (Sampler.post_meanvar ps) = (i - burnin)%Z /\
      w_n (Sampler.absfouriercoeff ps) = (i - burnin)%Z /\
      Z.of_nat (length (Sampler.nrmse_values st)) = (i - burnin - 1)%Z /\
      Z.of_nat (length (Sampler.psnr_values st)) = (i - burnin - 1)%Z /\
      Z.of_nat (length (Sampler.ssim_values st)) = (i - burnin - 1)%Z /\
      Z.of_nat (length (Sampler.log_pi_trace st)) = (i - burnin - 1)%Z /\
      ((0 < step)%Z ->
         Z.of_nat (length (Sampler.MC_X st)) = ((i - burnin - 1) / step)%Z /\
         Sampler.count ps = ((i - burnin - 1) mod step)%Z) /\
      ((step <= 0)%Z ->
         Sampler.MC_X st = [] /\ Sampler.count ps = (i - burnin - 1)%Z).

(** [a] equals [b] up to one. *)
Definition within_one (a b : Z) : Prop := (b - 1 <= a <= b + 1)%Z.

(** ** Fixtures: a two-pixel problem, and a tensor type with a non-finite value *)

Module Fixture.

(** Soft threshold of [d] at [t >= 0]. *)
Definition shrink (d t : R) : R :=
  if Rlt_dec t d then (d - t)%R
  else if Rlt_dec d (- t) then (d + t)%R
  else 0%R.

(** The proximal operator of the total variation of a two-pixel image,
    [|x_1 - x_0|], with parameter [lambda]: the mean is kept and the
    difference is thresholded at [2 lambda]. *)
Definition prox_tv2 (X : bool -> R) (o : prox_options) : bool -> R :=
  let m := ((X true + X false) / 2)%R in
  let d := shrink (X true - X false) (2 * lambda o) in
  fun b => if b then (m + d / 2)%R else (m - d / 2)%R.

(** Two pixels, identity blur ([A = AT], norm 1), the total variation of
    two pixels and its proximal operator; the metrics are not used. *)
Definition tools : sampling_tools bool R :=
  mkTools bool R (fun X => X) (fun X => X) 1%R
          (fun X => (X true - X false)%R) Rabs prox_tv2
          (fun X => sqrt (X true ^ 2 + X false ^ 2))
          (fun _ _ => 0%R) (fun _ _ => 0%R) (fun _ _ => 0%R)
          (fun X => X) (fun X => X).

Definition const (c : R) : bool -> R := fun _ => c.

(** The image with pixels 1 and 0. *)
Definition edge : bool -> R := fun b => if b then 1%R else 0%R.

Definition still : nat -> (bool -> R) := fun _ => const 0.

Definition start : World := mkWorld 0 0.

(** A value that is an integer or not a number. *)
Inductive xval : Type :=
| Fin (z : Z)
| NaN.

Definition xlift2 (op : Z -> Z -> Z) (a b : xval) : xval :=
  match a, b with
  | Fin u, Fin v => Fin (op u v)
  | _, _ => NaN
  end.

#[export] Instance XTensorOps : TensorOps xval :=
  mkTensorOps xval (xlift2 Z.add) (xlift2 Z.sub) (xlift2 Z.mul)
              (fun a k => xlift2 Z.div a (Fin k))
              (fun a => match a with Fin _ => Fin 0 | NaN => NaN end).

Definition isfinite (a : xval) : bool :=
  match a with Fin _ => true | NaN => false end.

(** A transition that leaves the finite range once the state reaches 3. *)
Definition blowup_kernel (X : xval) : M xval :=
  fun w => Ok (match X with
               | Fin z => if (3 <=? z)%Z then NaN else Fin (z + 1)
               | NaN => NaN
               end) (ticked (drew w)).

(** The loop on [xval] from the state 0, over [range(N)]; the metrics
    return the running mean, the log-posterior returns the state. *)
Definition xrun (burnin step N : Z)
  : outcome (Sampler.loop_state (T:=xval) (S:=xval) (Ex:=unit)) :=
  Sampler.sampling_loop blowup_kernel (fun X => X)
    (fun _ m => m) (fun _ m => m) (fun _ m => m) (fun X => X) (Fin 0)
    (fun _ => tt) (fun u _ => u) burnin step N (Fin 0) start.

(** The length of the trace that a run retained. *)
Definition trace_length {T S Ex : Type}
    (r : outcome (Sampler.loop_state (T:=T) (S:=S) (Ex:=Ex))) : option Z :=
  match r with
  | Ok st _ => Some (Z.of_nat (length (Sampler.MC_X st)))
  | Raise _ => None
  end.

End Fixture.

(** ** The chain that a loop runs *)

(** [n] successive transitions of a kernel, from the state [X]. *)
Fixpoint transitions {T : Type} (kernel : T -> M T) (n : nat) (X : T) : M T :=
  match n with
  | O => ret X
  | S n' => bind (kernel X) (transitions kernel n')
  end.

(** What a run leaves of the chain: the current state and the ambient
    state, or the exception. *)
Definition chain_view {T S Ex : Type}
    (r : outcome (Sampler.loop_state (T:=T) (S:=S) (Ex:=Ex))) : outcome T :=
  match r with
  | Ok st w => Ok (Sampler.X st) w
  | Raise e => Raise e
  end.

(** The state and the ambient state after [n] transitions of a kernel
    that returns [next X w] and leaves the ambient state [advance w]. *)
Fixpoint orbit {T : Type} (next : T -> World -> T) (advance : World -> World)
    (n : nat) (y : T) (w : World) : T * World :=
  match n with
  | O => (y, w)
  | S n' => (next (fst (orbit next advance n' y w)) (snd (orbit next advance n' y w)),
             advance (snd (orbit next advance n' y w)))
  end.

(** The accumulator built from the state [first] and updated with the
    states [rest 0], ..., [rest (m - 1)]. *)
Definition accumulated {T : Type} {Hops : TensorOps T} (first : T) (rest : nat -> T)
    (m : nat) : welford_t T :=
  fold_left update (map rest (seq 0 m)) (welford first).

(** What the loop holds after [i] iterations, [i > b], in terms of the
    states [state k] reached after [k] transitions: [b] is the burn-in and
    [q] the thinning step. *)
Definition loop_contents {T S Ex : Type} {Hops : TensorOps T}
    (fft2_abs : T -> T) (NRMSE PSNR SSIM : T -> T -> S) (logPi : T -> S) (x : T)
    (state : nat -> T) (b q i : nat)
    (st : Sampler.loop_state (T:=T) (S:=S) (Ex:=Ex)) : Prop :=
  let P := (i - b - 1)%nat in
  let later := fun k => state (b + 2 + k)%nat in
  let acc := accumulated (state (b + 1)%nat) later in
  Sampler.X st = state i /\
  exists ps,
    Sampler.post st = Some ps /\
    Sampler.post_meanvar ps = acc P /\
    Sampler.absfouriercoeff ps
      = accumulated (fft2_abs (state (b + 1)%nat)) (fun k => fft2_abs (later k)) P /\
    Sampler.count ps = Z.of_nat (P mod q) /\
    Sampler.nrmse_values st = map (fun k => NRMSE x (get_mean (acc (Datatypes.S k)))) (seq 0 P) /\
    Sampler.psnr_values st = map (fun k => PSNR x (get_mean (acc (Datatypes.S k)))) (seq 0 P) /\
    Sampler.ssim_values st = map (fun k => SSIM x (get_mean (acc (Datatypes.S k)))) (seq 0 P) /\
    Sampler.log_pi_trace st = map (fun k => logPi (later k)) (seq 0 P) /\
    Sampler.MC_X st = map (fun k => state (b + 1 + (k + 1) * q)%nat) (seq 0 (P / q)).

(** The Chebyshev polynomials of the first kind, by their recurrence:
    [T_0 = 1], [T_1 = x], [T_{j+1} = 2 x T_j - T_{j-1}]. *)
Fixpoint cheb_poly (n : nat) (x : R) : R :=
  match n with
  | O => 1%R
  | Datatypes.S n1 =>
      match n1 with
      | O => x
      | Datatypes.S n2 => (2 * x * cheb_poly n1 x - cheb_poly n2 x)%R
      end
  end.

(** What the test kernel of the fixture returns. *)
Definition blowup_next (X : Fixture.xval) (w : World) : Fixture.xval :=
  match X with
  | Fixture.Fin z => if (3 <=? z)%Z then Fixture.NaN else Fixture.Fin (z + 1)
  | Fixture.NaN => Fixture.NaN
  end.

(** A generator that differs from the still one from its fifth array on. *)
Definition late_noise : nat -> (bool -> R) :=
  fun k => if (k <? 4)%nat then Fixture.const 0 else Fixture.const 1.

(** The argument at which the stability polynomial of the SK-ROCK kernel is
    evaluated on the linear problem [gradU Y = lam * Y]. *)
Definition stability_argument (Lip : R) (s : Z) (eta alpha lam : R) : R :=
  (w0 s eta - w1 s eta * dtSKROCK Lip s eta alpha * lam)%R.

(** The factor by which stage [j] has multiplied the current state on the
    linear problem. *)
Definition stage_amplification (Lip : R) (s : Z) (eta alpha lam : R) (j : nat) : R :=
  (cheb_poly j (stability_argument Lip s eta alpha lam) / T_s (Z.of_nat j) (w0 s eta))%R.

(** * Properties *)

Section HyperbolicFacts.
Local Open Scope R_scope.

Lemma sqrt_sq_minus_one (x : R) : 1 <= x -> sqrt (x ^ 2 - 1) * sqrt (x ^ 2 - 1) = x ^ 2 - 1.
Proof. intros Hx. apply sqrt_sqrt. nra. Qed.

Lemma arccosh_arg_pos (x : R) : 1 <= x -> 0 < x + sqrt (x ^ 2 - 1).
Proof.
  intros Hx. pose proof (sqrt_pos (x ^ 2 - 1)). lra.
Qed.

Lemma arccosh_arg_inv (x : R) :
  1 <= x -> / (x + sqrt (x ^ 2 - 1)) = x - sqrt (x ^ 2 - 1).
Proof.
  intros Hx.
  pose proof (arccosh_arg_pos x Hx) as Hpos.
  pose proof (sqrt_sq_minus_one x Hx) as Hsq.
  apply Rmult_eq_reg_l with (x + sqrt (x ^ 2 - 1)); [ | lra ].
  rewrite Rinv_r by lra. nra.
Qed.

Lemma cosh_arccosh (x : R) : 1 <= x -> cosh (arccosh x) = x.
Proof.
  intros Hx. unfold cosh, arccosh.
  rewrite exp_Ropp, exp_ln by (apply arccosh_arg_pos; assumption).
  rewrite arccosh_arg_inv by assumption. lra.
Qed.

Lemma sinh_arccosh (x : R) : 1 <= x -> sinh (arccosh x) = sqrt (x ^ 2 - 1).
Proof.
  intros Hx. unfold sinh, arccosh.
  rewrite exp_Ropp, exp_ln by (apply arccosh_arg_pos; assumption).
  rewrite arccosh_arg_inv by assumption. lra.
Qed.

Lemma T_s_one (x : R) : 1 <= x -> T_s 1 x = x.
Proof. intros Hx. unfold T_s. rewrite Rmult_1_l. apply cosh_arccosh, Hx. Qed.

Lemma T_prime_s_one (x : R) : 1 < x -> T_prime_s 1 x = 1.
Proof.
  intros Hx. unfold T_prime_s. rewrite !Rmult_1_l, sinh_arccosh by lra.
  apply Rdiv_diag. apply Rgt_not_eq, sqrt_lt_R0. nra.
Qed.

End HyperbolicFacts.

Section StepSize.
Local Open Scope R_scope.

Lemma rhoSKROCK_ell_s (s : Z) (eta : R) : rhoSKROCK s eta = ell_s s eta.
Proof. unfold rhoSKROCK, ell_s, denNStag. lra. Qed.

Lemma dtSKROCK_delta_s (L : R) (s : Z) (eta alpha : R) :
  dtSKROCK L s eta alpha = delta_s L s eta alpha.
Proof. unfold dtSKROCK, delta_s. rewrite rhoSKROCK_ell_s. reflexivity. Qed.

Lemma ell_s_one (eta : R) : ell_s 1 eta = - 1 - eta / 3.
Proof. unfold ell_s. lra. Qed.

Lemma ell_s_two_stages (s : Z) (eta : R) :
  (2 <= s)%Z -> 0 < eta < 1 -> 0 < ell_s s eta.
Proof.
  intros Hs Heta. unfold ell_s.
  apply IZR_le in Hs.
  assert (1.5 <= IZR s - 0.5) by lra.
  assert (2.25 <= (IZR s - 0.5) ^ 2) by nra.
  nra.
Qed.

Lemma delta_s_nonneg (L : R) (s : Z) (eta alpha : R) :
  (2 <= s)%Z -> 0 < eta < 1 -> 0 <= alpha -> 0 < L -> 0 <= delta_s L s eta alpha.
Proof.
  intros Hs Heta Ha HL. unfold delta_s.
  pose proof (ell_s_two_stages s eta Hs Heta).
  apply Rle_mult_inv_pos; [ nra | assumption ].
Qed.

Lemma delta_s_one_neg (L eta alpha : R) :
  0 < eta < 1 -> 0 < alpha -> 0 < L -> delta_s L 1 eta alpha < 0.
Proof.
  intros Heta Ha HL. unfold delta_s. rewrite ell_s_one.
  assert (HiL : 0 < / L) by (apply Rinv_0_lt_compat; assumption).
  assert (Hn : alpha * (- 1 - eta / 3) < 0) by nra.
  unfold Rdiv in *. nra.
Qed.

Lemma w0_one (eta : R) : w0 1 eta = 1 + eta.
Proof. unfold w0. lra. Qed.

Lemma w1_one (eta : R) : 0 < eta -> w1 1 eta = 1 + eta.
Proof.
  intros Heta. unfold w1. rewrite w0_one, T_s_one, T_prime_s_one by lra. lra.
Qed.

End StepSize.

Section ChebyshevFacts.
Local Open Scope R_scope.

Lemma cosh_sum (u v : R) : cosh (u + v) + cosh (u - v) = 2 * cosh u * cosh v.
Proof.
  unfold cosh.
  replace (- (u + v)) with (- u + - v) by ring.
  replace (u - v) with (u + - v) by ring.
  replace (- (u + - v)) with (- u + v) by ring.
  rewrite !exp_plus. field.
Qed.

Lemma cheb_zero (x : R) : cheb 0 x = 1.
Proof. unfold cheb. rewrite Rmult_0_l. apply cosh_0. Qed.

Lemma cheb_one (x : R) : 1 <= x -> cheb 1 x = x.
Proof. intros Hx. unfold cheb. rewrite Rmult_1_l. apply cosh_arccosh, Hx. Qed.

Lemma cheb_recurrence (j : Z) (x : R) :
  1 <= x -> cheb (j + 1) x = 2 * x * cheb j x - cheb (j - 1) x.
Proof.
  intros Hx. unfold cheb. rewrite plus_IZR, minus_IZR.
  pose proof (cosh_sum (IZR j * arccosh x) (arccosh x)) as Hsum.
  rewrite (cosh_arccosh x Hx) in Hsum.
  replace ((IZR j + 1) * arccosh x) with (IZR j * arccosh x + arccosh x) by ring.
  replace ((IZR j - 1) * arccosh x) with (IZR j * arccosh x - arccosh x) by ring.
  lra.
Qed.

End ChebyshevFacts.

Section MonadFacts.

Lemma math_sqrt_ok (x : R) (w : World) :
  (0 <= x)%R -> math_sqrt x w = Ok (sqrt x) w.
Proof.
  intros Hx. unfold math_sqrt. destruct (Rlt_dec x 0) as [Hneg | _].
  - lra.
  - reflexivity.
Qed.

Lemma math_sqrt_neg (x : R) (w : World) :
  (x < 0)%R -> math_sqrt x w = Raise ValueError.
Proof.
  intros Hx. unfold math_sqrt. destruct (Rlt_dec x 0) as [_ | Hpos].
  - reflexivity.
  - contradiction.
Qed.

Lemma bind_ok {V W} (m : M V) (k : V -> M W) (w w' : World) (v : V) :
  m w = Ok v w' -> bind m k w = k v w'.
Proof. intros Hm. unfold bind. rewrite Hm. reflexivity. Qed.

Lemma bind_raise {V W} (m : M V) (k : V -> M W) (w : World) (e : exn) :
  m w = Raise e -> bind m k w = Raise e.
Proof. intros Hm. unfold bind. rewrite Hm. reflexivity. Qed.

Lemma world_eta (w : World) : mkWorld (rng_draws w) (grad_evals w) = w.
Proof. destruct w; reflexivity. Qed.

Lemma range_unfold (lo hi : Z) :
  range lo hi = map (fun k => (lo + Z.of_nat k)%Z) (seq 0 (Z.to_nat (hi - lo))).
Proof. reflexivity. Qed.

End MonadFacts.

Section KernelFacts.
Context {Idx : Type}.
Variable randn : nat -> (Idx -> R).
Local Open Scope R_scope.

Lemma ULA_kernel_returns (g : (Idx -> R) -> (Idx -> R)) (X : Idx -> R) (dlt : R) (w : World) :
  0 <= dlt ->
  ULA_kernel randn g X dlt w =
  Ok (X - dlt *: g X + sqrt (2 * dlt) *: randn (rng_draws w))%T (drew (ticked w)).
Proof.
  intros Hd. unfold ULA_kernel.
  rewrite (bind_ok _ _ w (ticked w) (g X)) by reflexivity.
  rewrite (bind_ok _ _ _ (ticked w) (sqrt (2 * dlt))) by (apply math_sqrt_ok; lra).
  reflexivity.
Qed.

Lemma ULA_kernel_raises (g : (Idx -> R) -> (Idx -> R)) (X : Idx -> R) (dlt : R) (w : World) :
  dlt < 0 -> ULA_kernel randn g X dlt w = Raise ValueError.
Proof.
  intros Hd. unfold ULA_kernel.
  rewrite (bind_ok _ _ w (ticked w) (g X)) by reflexivity.
  apply bind_raise, math_sqrt_neg. lra.
Qed.

Variables (Lip : R) (s : Z) (eta alpha : R) (gradU : (Idx -> R) -> (Idx -> R)).
Variables (X Q : Idx -> R).

Lemma K_two_back (j : nat) :
  K s eta (dtSKROCK Lip s eta alpha) gradU X Q (S (S j)) =
  ((- mu_j s eta (Z.of_nat (S (S j))) * dtSKROCK Lip s eta alpha)
     *: gradU (K s eta (dtSKROCK Lip s eta alpha) gradU X Q (S j))
   + nu_j s eta (Z.of_nat (S (S j))) *: K s eta (dtSKROCK Lip s eta alpha) gradU X Q (S j)
   + kappa_j s eta (Z.of_nat (S (S j))) *: K s eta (dtSKROCK Lip s eta alpha) gradU X Q j)%T.
Proof. reflexivity. Qed.

Lemma stage_step (a : nat) (w : World) :
  stage Lip s eta alpha gradU (2 + Z.of_nat a)
        (K s eta (dtSKROCK Lip s eta alpha) gradU X Q (S a),
         K s eta (dtSKROCK Lip s eta alpha) gradU X Q a) w =
  Ok (K s eta (dtSKROCK Lip s eta alpha) gradU X Q (S (S a)),
      K s eta (dtSKROCK Lip s eta alpha) gradU X Q (S a)) (ticked w).
Proof.
  rewrite K_two_back.
  replace (2 + Z.of_nat a)%Z with (Z.of_nat (S (S a))) by lia.
  reflexivity.
Qed.

Lemma stage_loop (n : nat) : forall (a : nat) (w : World),
  for_loop (map (fun k => (2 + Z.of_nat k)%Z) (seq a n))
           (stage Lip s eta alpha gradU)
           (K s eta (dtSKROCK Lip s eta alpha) gradU X Q (S a),
            K s eta (dtSKROCK Lip s eta alpha) gradU X Q a) w =
  Ok (K s eta (dtSKROCK Lip s eta alpha) gradU X Q (S a + n),
      K s eta (dtSKROCK Lip s eta alpha) gradU X Q (a + n))
     (mkWorld (rng_draws w) (grad_evals w + n)).
Proof.
  induction n as [ | n IH ]; intros a w.
  - cbn [seq map for_loop]. unfold ret.
    rewrite !Nat.add_0_r, world_eta. reflexivity.
  - cbn [seq map for_loop].
    rewrite (bind_ok _ _ _ _ _ (stage_step a w)).
    rewrite IH. cbn [ticked rng_draws grad_evals].
    replace (S (S a) + n)%nat with (S a + S n)%nat by lia.
    replace (S a + n)%nat with (a + S n)%nat by lia.
    replace (S (grad_evals w) + n)%nat with (grad_evals w + S n)%nat by lia.
    reflexivity.
Qed.

End KernelFacts.

Section SKROCKFacts.
Context {Idx : Type}.
Variable randn : nat -> (Idx -> R).
Local Open Scope R_scope.
Variables (Lip : R) (s : Z) (eta alpha : R) (gradU : (Idx -> R) -> (Idx -> R)).

Lemma kappa1_omega : kappa1 s eta = IZR s * omega1 s eta / omega0 s eta.
Proof.
  unfold kappa1. change (w1 s eta) with (omega1 s eta).
  change (w0 s eta) with (omega0 s eta). unfold Rdiv. ring.
Qed.

Lemma SKROCK_kernel_raises (X : Idx -> R) (w : World) :
  dtSKROCK Lip s eta alpha < 0 ->
  SKROCK_kernel randn X Lip s eta alpha gradU w = Raise ValueError.
Proof.
  intros Hdt. unfold SKROCK_kernel. apply bind_raise, math_sqrt_neg. lra.
Qed.

Lemma SKROCK_kernel_first_stage (X : Idx -> R) (w : World) :
  0 <= dtSKROCK Lip s eta alpha ->
  SKROCK_kernel randn X Lip s eta alpha gradU w =
  bind (for_loop (range 2 (s + 1)) (stage Lip s eta alpha gradU)
          ((X - (mu1 s eta * dtSKROCK Lip s eta alpha)
                  *: gradU (X + nu1 s eta
                              *: (sqrt (2 * dtSKROCK Lip s eta alpha) *: randn (rng_draws w)))
              + kappa1 s eta
                  *: (sqrt (2 * dtSKROCK Lip s eta alpha) *: randn (rng_draws w)))%T, X))
       (fun st => ret (fst st)) (ticked (drew w)).
Proof.
  intros Hdt. unfold SKROCK_kernel.
  rewrite (bind_ok _ _ w w (sqrt (2 * dtSKROCK Lip s eta alpha)))
    by (apply math_sqrt_ok; lra).
  rewrite (bind_ok _ _ w (drew w) (randn (rng_draws w))) by reflexivity.
  reflexivity.
Qed.

Lemma SKROCK_kernel_returns (X : Idx -> R) (w : World) :
  (1 <= s)%Z ->
  0 <= dtSKROCK Lip s eta alpha ->
  SKROCK_kernel randn X Lip s eta alpha gradU w =
  Ok (K s eta (dtSKROCK Lip s eta alpha) gradU X
        (sqrt (2 * dtSKROCK Lip s eta alpha) *: randn (rng_draws w))%T (Z.to_nat s))
     (mkWorld (S (rng_draws w)) (grad_evals w + Z.to_nat s)).
Proof.
  intros Hs Hdt. rewrite SKROCK_kernel_first_stage by assumption.
  rewrite kappa1_omega, range_unfold.
  set (Q := (sqrt (2 * dtSKROCK Lip s eta alpha) *: randn (rng_draws w))%T).
  pose proof (stage_loop Lip s eta alpha gradU X Q (Z.to_nat (s + 1 - 2)) 0
                (ticked (drew w))) as Hloop.
  cbn [K] in Hloop. unfold K_1 in Hloop.
  erewrite bind_ok by exact Hloop.
  unfold ret. cbn [fst ticked drew rng_draws grad_evals].
  replace (1 + Z.to_nat (s + 1 - 2))%nat with (Z.to_nat s) by lia.
  replace (S (grad_evals w) + Z.to_nat (s + 1 - 2))%nat
    with (grad_evals w + Z.to_nat s)%nat by lia.
  reflexivity.
Qed.

Lemma stage_keeps_generator (js : Z) (st : (Idx -> R) * (Idx -> R)) (w : World) :
  exists st', stage Lip s eta alpha gradU js st w = Ok st' (ticked w).
Proof. destruct st as [Xts XtsMinus2]. eexists. reflexivity. Qed.

Lemma stages_keep_generator (l : list Z) :
  forall (st : (Idx -> R) * (Idx -> R)) (w : World),
  exists st', for_loop l (stage Lip s eta alpha gradU) st w =
              Ok st' (mkWorld (rng_draws w) (grad_evals w + length l)).
Proof.
  induction l as [ | js l IH ]; intros st w.
  - exists st. cbn [for_loop length]. unfold ret.
    rewrite Nat.add_0_r, world_eta. reflexivity.
  - destruct (stage_keeps_generator js st w) as [st1 H1].
    destruct (IH st1 (ticked w)) as [st2 H2].
    exists st2. cbn [for_loop length]. rewrite (bind_ok _ _ _ _ _ H1), H2.
    cbn [ticked rng_draws grad_evals].
    replace (S (grad_evals w) + length l)%nat with (grad_evals w + S (length l))%nat by lia.
    reflexivity.
Qed.

End SKROCKFacts.

Section OneStage.
Context {Idx : Type}.
Variable randn : nat -> (Idx -> R).
Local Open Scope R_scope.

Lemma one_stage_coefficients (eta : R) :
  0 < eta -> mu1 1 eta = 1 /\ kappa1 1 eta = 1 /\ nu1 1 eta = (1 + eta) / 2.
Proof.
  intros Heta.
  pose proof (w0_one eta) as Hw0. pose proof (w1_one eta Heta) as Hw1.
  unfold mu1, kappa1, nu1. rewrite Hw0, Hw1.
  rewrite Rdiv_diag by lra. repeat split; lra.
Qed.

Lemma SKROCK_kernel_one_stage_value (X : Idx -> R) (Lip eta alpha : R)
    (gradU : (Idx -> R) -> (Idx -> R)) (w : World) :
  0 < eta ->
  0 <= dtSKROCK Lip 1 eta alpha ->
  exists X',
    SKROCK_kernel randn X Lip 1 eta alpha gradU w
      = Ok X' (mkWorld (S (rng_draws w)) (S (grad_evals w))) /\
    forall i,
      X' i = X i
             - dtSKROCK Lip 1 eta alpha
               * gradU (X + ((1 + eta) / 2)
                           *: (sqrt (2 * dtSKROCK Lip 1 eta alpha) *: randn (rng_draws w)))%T i
             + sqrt (2 * dtSKROCK Lip 1 eta alpha) * randn (rng_draws w) i.
Proof.
  intros Heta Hdt.
  destruct (one_stage_coefficients eta Heta) as (Hmu & Hka & Hnu).
  eexists. split.
  - rewrite SKROCK_kernel_first_stage by assumption. reflexivity.
  - intros i. cbn [fst]. rewrite Hmu, Hka, Hnu. unfold tadd, tsub, smul. ring.
Qed.

End OneStage.

Section LoopFacts.
Context {T S Ex : Type} {Hops : TensorOps T}.
Variable kernel : T -> M T.
Variable fft2_abs : T -> T.
Variables NRMSE PSNR SSIM : T -> T -> S.
Variable logPi : T -> S.
Variable x : T.
Variable init_extra : T -> Ex.
Variable thin_extra : Ex -> T -> Ex.
Variables burnin step : Z.
Variable advance : World -> World.
Hypothesis kernel_returns : forall X w, exists X', kernel X w = Ok X' (advance w).
Local Open Scope Z_scope.

Lemma thin_append (P : Z) :
  0 <= P -> 0 < step -> P mod step = step - 1 ->
  (P + 1) / step = P / step + 1 /\ (P + 1) mod step = 0.
Proof.
  intros HP Hstep Hmod.
  assert (Heq : P + 1 = (P / step + 1) * step + 0).
  { pose proof (Z.div_mod P step ltac:(lia)). nia. }
  split.
  - symmetry. apply (Z.div_unique_pos (P + 1) step (P / step + 1) 0); lia.
  - symmetry. apply (Z.mod_unique_pos (P + 1) step (P / step + 1) 0); lia.
Qed.

Lemma thin_skip (P : Z) :
  0 <= P -> 0 < step -> P mod step <> step - 1 ->
  (P + 1) / step = P / step /\ (P + 1) mod step = P mod step + 1.
Proof.
  intros HP Hstep Hmod.
  pose proof (Z.mod_pos_bound P step Hstep) as Hb.
  assert (Heq : P + 1 = (P / step) * step + (P mod step + 1)).
  { pose proof (Z.div_mod P step ltac:(lia)). nia. }
  split.
  - symmetry. apply (Z.div_unique_pos (P + 1) step (P / step) (P mod step + 1)); lia.
  - symmetry. apply (Z.mod_unique_pos (P + 1) step (P / step) (P mod step + 1)); lia.
Qed.

Lemma body_counts (i : Z) (st : Sampler.loop_state) (w : World) :
  loop_counts burnin step i st ->
  exists st',
    Sampler.body kernel fft2_abs NRMSE PSNR SSIM logPi x init_extra thin_extra burnin step
                 i st w = Ok st' (advance w) /\
    loop_counts burnin step (i + 1) st'.
Proof.
  intros Hinv. unfold Sampler.body.
  destruct (kernel_returns (Sampler.X st) w) as [X' HX'].
  rewrite (bind_ok _ _ _ _ _ HX').
  unfold loop_counts in *.
  destruct (Z.eqb_spec i burnin) as [Heq | Hne].
  - (* the iteration that ends the burn-in *)
    subst i. rewrite Z.leb_refl in Hinv.
    destruct Hinv as (Hpost & Hn & Hp & Hs & Hl & Hm).
    eexists. split; [ reflexivity | ].
    destruct (Z.leb_spec (burnin + 1) burnin); [ lia | ].
    eexists. split; [ reflexivity | ]. cbn.
    rewrite Hn, Hp, Hs, Hl, Hm. cbn.
    repeat (split; [ lia | ]).
    replace (burnin + 1 - burnin - 1) with 0 by lia.
    split; intros Hstep.
    + rewrite Z.div_0_l, Z.mod_0_l by lia. split; reflexivity.
    + split; reflexivity.
  - destruct (Z.gtb_spec i burnin) as [Hgt | Hle].
    + (* after the burn-in *)
      destruct (Z.leb_spec i burnin); [ lia | ].
      destruct Hinv as (ps & Hpost & Hpm & Haf & Hn & Hp & Hs & Hl & Hthin & Hoff).
      rewrite Hpost.
      destruct (Z.leb_spec (i + 1) burnin); [ lia | ].
      destruct (Z.eqb_spec (Sampler.count ps) (step - 1)) as [Hc | Hc].
      * eexists. split; [ reflexivity | ].
        eexists. split; [ reflexivity | ]. cbn.
        rewrite !length_app, Hpm, Haf. cbn [length].
        repeat (split; [ lia | ]).
        replace (i + 1 - burnin - 1) with (i - burnin - 1 + 1) by lia.
        split; intros Hstep.
        -- destruct (Hthin Hstep) as [Hlen Hcount].
           destruct (thin_append (i - burnin - 1) ltac:(lia) Hstep ltac:(lia)) as [Hd Hm].
           split; lia.
        -- destruct (Hoff Hstep) as [Hnil Hcount]. lia.
      * eexists. split; [ reflexivity | ].
        eexists. split; [ reflexivity | ]. cbn.
        rewrite !length_app, Hpm, Haf. cbn [length].
        repeat (split; [ lia | ]).
        replace (i + 1 - burnin - 1) with (i - burnin - 1 + 1) by lia.
        split; intros Hstep.
        -- destruct (Hthin Hstep) as [Hlen Hcount].
           destruct (thin_skip (i - burnin - 1) ltac:(lia) Hstep ltac:(lia)) as [Hd Hm].
           split; lia.
        -- destruct (Hoff Hstep) as [Hnil Hcount]. split; [ assumption | lia ].
    + (* during the burn-in *)
      destruct (Z.leb_spec i burnin); [ | lia ].
      destruct Hinv as (Hpost & Hn & Hp & Hs & Hl & Hm).
      eexists. split; [ reflexivity | ].
      destruct (Z.leb_spec (i + 1) burnin); [ | lia ].
      cbn. repeat split; assumption.
Qed.

Lemma loop_counts_range (n : nat) : forall (a : nat) (st : Sampler.loop_state) (w : World),
  loop_counts burnin step (Z.of_nat a) st ->
  exists st',
    for_loop (map (fun k => 0 + Z.of_nat k) (seq a n))
             (Sampler.body kernel fft2_abs NRMSE PSNR SSIM logPi x init_extra thin_extra burnin step)
             st w
      = Ok st' (Nat.iter n advance w) /\
    loop_counts burnin step (Z.of_nat (a + n)) st'.
Proof.
  induction n as [ | n IH ]; intros a st w Hinv.
  - exists st. rewrite Nat.add_0_r. split; [ reflexivity | assumption ].
  - cbn [seq map for_loop].
    destruct (body_counts (0 + Z.of_nat a) st w) as (st1 & Hbody & Hinv1);
      [ rewrite Z.add_0_l; assumption | ].
    rewrite (bind_ok _ _ _ _ _ Hbody).
    destruct (IH (Datatypes.S a) st1 (advance w)) as (st2 & Hrest & Hinv2).
    { replace (Z.of_nat (Datatypes.S a)) with (0 + Z.of_nat a + 1) by lia. assumption. }
    exists st2. split.
    + rewrite Hrest. rewrite Nat.iter_succ_r. reflexivity.
    + replace (a + Datatypes.S n)%nat with (Datatypes.S a + n)%nat by lia. assumption.
Qed.

Lemma sampling_loop_counts (N : Z) (y : T) (w : World) :
  0 <= burnin -> 0 <= N ->
  exists st,
    Sampler.sampling_loop kernel fft2_abs NRMSE PSNR SSIM logPi x init_extra thin_extra
                          burnin step N y w
      = Ok st (Nat.iter (Z.to_nat N) advance w) /\
    loop_counts burnin step N st.
Proof.
  intros Hb HN. unfold Sampler.sampling_loop. rewrite range_unfold.
  destruct (loop_counts_range (Z.to_nat (N - 0)) 0 (Sampler.init_state y) w)
    as (st & Hrun & Hinv).
  - unfold loop_counts. destruct (Z.leb_spec (Z.of_nat 0) burnin); [ | lia ].
    cbn. repeat split.
  - exists st. replace (Z.to_nat N) with (Z.to_nat (N - 0)) by lia.
    split; [ exact Hrun | ].
    replace N with (Z.of_nat (0 + Z.to_nat (N - 0))) at 1 by lia. assumption.
Qed.

End LoopFacts.

Section StepSizeMYULA.
Context {Idx G : Type}.
Variable E : sampling_tools Idx G.
Variable sigma : R.
Local Open Scope R_scope.

Lemma inv_nonneg (r : R) : 0 <= r -> 0 <= / r.
Proof.
  intros [Hpos | Hzero].
  - left. apply Rinv_0_lt_compat, Hpos.
  - subst r. rewrite Rinv_0. lra.
Qed.

Lemma div_nonneg (a b : R) : 0 <= a -> 0 <= b -> 0 <= a / b.
Proof.
  intros Ha Hb. unfold Rdiv. apply Rmult_le_pos; [ assumption | apply inv_nonneg, Hb ].
Qed.

Lemma L_y_nonneg : 0 <= AAT_norm E -> 0 <= L_y E sigma.
Proof.
  intros HA. unfold L_y. apply div_nonneg; [ assumption | ]. nra.
Qed.

Lemma lambd_nonneg : 0 <= AAT_norm E -> 0 <= lambd E sigma.
Proof.
  intros HA. unfold lambd, lambda_prox, lambd_frac.
  apply Rmult_le_pos; [ | lra ].
  apply div_nonneg; [ lra | apply L_y_nonneg, HA ].
Qed.

Lemma L_nonneg : 0 <= AAT_norm E -> 0 <= L E sigma.
Proof.
  intros HA. unfold L, L_g.
  pose proof (L_y_nonneg HA).
  pose proof (div_nonneg 1 (lambd E sigma) ltac:(lra) (lambd_nonneg HA)). lra.
Qed.

Lemma delta_nonneg : 0 <= AAT_norm E -> 0 <= delta E sigma.
Proof.
  intros HA. unfold delta. apply div_nonneg; [ lra | apply L_nonneg, HA ].
Qed.

End StepSizeMYULA.

Section WorldFacts.

Lemma iter_ULA_world (n : nat) (w : World) :
  Nat.iter n (fun w => drew (ticked w)) w
  = mkWorld (rng_draws w + n) (grad_evals w + n).
Proof.
  induction n as [ | n IH ].
  - cbn. rewrite !Nat.add_0_r. apply eq_sym, world_eta.
  - rewrite Nat.iter_succ, IH. unfold drew, ticked. cbn. f_equal; lia.
Qed.

Lemma iter_SKROCK_world (k n : nat) (w : World) :
  Nat.iter n (fun w => mkWorld (S (rng_draws w)) (grad_evals w + k)) w
  = mkWorld (rng_draws w + n) (grad_evals w + n * k).
Proof.
  induction n as [ | n IH ].
  - cbn. rewrite !Nat.add_0_r. apply eq_sym, world_eta.
  - rewrite Nat.iter_succ, IH. cbn. f_equal; lia.
Qed.

End WorldFacts.

Section NotebookFacts.
Context {Idx G : Type}.
Variable E : sampling_tools Idx G.
Variable y : Idx -> R.
Variable sigma : R.
Variable x : Idx -> R.
Variable randn : nat -> (Idx -> R).

Lemma MYULA_loop_counts (burnin step N : Z) (w : World) :
  (0 <= AAT_norm E)%R -> (0 <= burnin)%Z -> (0 <= N)%Z ->
  exists st,
    MYULA_loop E y sigma x randn burnin step N w
      = Ok st (mkWorld (rng_draws w + Z.to_nat N) (grad_evals w + Z.to_nat N)) /\
    loop_counts burnin step N st.
Proof.
  intros HA Hb HN. rewrite <- iter_ULA_world.
  apply (sampling_loop_counts
           (fun X => ULA_kernel randn (grad_f_g E y sigma) X (delta E sigma)));
    try assumption.
  intros X w1. eexists. apply ULA_kernel_returns, delta_nonneg, HA.
Qed.

Lemma SKROCK_loop_counts (s : Z) (eta dt_perc : R) (burnin step N : Z) (w : World) :
  (1 <= s)%Z -> (0 <= dtSKROCK (L E sigma) s eta dt_perc)%R ->
  (0 <= burnin)%Z -> (0 <= N)%Z ->
  exists st,
    SKROCK_loop E y sigma x randn s eta dt_perc burnin step N w
      = Ok st (mkWorld (rng_draws w + Z.to_nat N)
                       (grad_evals w + Z.to_nat N * Z.to_nat s)) /\
    loop_counts burnin step N st.
Proof.
  intros Hs Hdt Hb HN. rewrite <- iter_SKROCK_world.
  apply (sampling_loop_counts
           (fun X => SKROCK_kernel randn X (L E sigma) s eta dt_perc (grad_f_g E y sigma)));
    try assumption.
  intros X w1. eexists. apply SKROCK_kernel_returns; assumption.
Qed.

End NotebookFacts.

Section BodyFacts.
Context {T S Ex : Type} {Hops : TensorOps T}.
Variable kernel : T -> M T.
Variable fft2_abs : T -> T.
Variables NRMSE PSNR SSIM : T -> T -> S.
Variable logPi : T -> S.
Variable x : T.
Variable init_extra : T -> Ex.
Variable thin_extra : Ex -> T -> Ex.
Variables burnin step : Z.
Local Open Scope Z_scope.

Lemma body_kernel_raises (i : Z) (st : Sampler.loop_state) (w : World) (e : exn) :
  kernel (Sampler.X st) w = Raise e ->
  Sampler.body kernel fft2_abs NRMSE PSNR SSIM logPi x init_extra thin_extra burnin step
               i st w = Raise e.
Proof. intros Hk. unfold Sampler.body. apply bind_raise, Hk. Qed.

Lemma body_before_burnin (i : Z) (st : Sampler.loop_state) (w w' : World) (X' : T) :
  i < burnin ->
  kernel (Sampler.X st) w = Ok X' w' ->
  Sampler.body kernel fft2_abs NRMSE PSNR SSIM logPi x init_extra thin_extra burnin step
               i st w =
  Ok (Sampler.mkLoop X' (Sampler.post st) (Sampler.nrmse_values st)
        (Sampler.psnr_values st) (Sampler.ssim_values st)
        (Sampler.log_pi_trace st) (Sampler.MC_X st)) w'.
Proof.
  intros Hi Hk. unfold Sampler.body. rewrite (bind_ok _ _ _ _ _ Hk).
  destruct (Z.eqb_spec i burnin); [ lia | ].
  destruct (Z.gtb_spec i burnin); [ lia | ]. reflexivity.
Qed.

Lemma body_at_burnin (st : Sampler.loop_state) (w w' : World) (X' : T) :
  kernel (Sampler.X st) w = Ok X' w' ->
  Sampler.body kernel fft2_abs NRMSE PSNR SSIM logPi x init_extra thin_extra burnin step
               burnin st w =
  Ok (Sampler.mkLoop X'
        (Some (Sampler.mkStats (welford X') (welford (fft2_abs X')) (init_extra X') 0))
        (Sampler.nrmse_values st) (Sampler.psnr_values st) (Sampler.ssim_values st)
        (Sampler.log_pi_trace st) (Sampler.MC_X st)) w'.
Proof.
  intros Hk. unfold Sampler.body. rewrite (bind_ok _ _ _ _ _ Hk).
  rewrite Z.eqb_refl. reflexivity.
Qed.

Lemma body_after_burnin (i : Z) (st : Sampler.loop_state) (ps : Sampler.stats)
    (w w' : World) (X' : T) :
  burnin < i ->
  Sampler.post st = Some ps ->
  kernel (Sampler.X st) w = Ok X' w' ->
  exists st',
    Sampler.body kernel fft2_abs NRMSE PSNR SSIM logPi x init_extra thin_extra burnin step
                 i st w = Ok st' w' /\
    Sampler.X st' = X' /\
    (exists ps',
       Sampler.post st' = Some ps' /\
       Sampler.post_meanvar ps' = update (Sampler.post_meanvar ps) X' /\
       Sampler.absfouriercoeff ps' = update (Sampler.absfouriercoeff ps) (fft2_abs X')) /\
    Sampler.nrmse_values st' =
      Sampler.nrmse_values st ++ [NRMSE x (get_mean (update (Sampler.post_meanvar ps) X'))] /\
    Sampler.psnr_values st' =
      Sampler.psnr_values st ++ [PSNR x (get_mean (update (Sampler.post_meanvar ps) X'))] /\
    Sampler.ssim_values st' =
      Sampler.ssim_values st ++ [SSIM x (get_mean (update (Sampler.post_meanvar ps) X'))] /\
    Sampler.log_pi_trace st' = Sampler.log_pi_trace st ++ [logPi X'] /\
    Sampler.MC_X st' =
      if Sampler.count ps =? step - 1 then Sampler.MC_X st ++ [X'] else Sampler.MC_X st.
Proof.
  intros Hi Hpost Hk. unfold Sampler.body. rewrite (bind_ok _ _ _ _ _ Hk).
  destruct (Z.eqb_spec i burnin); [ lia | ].
  destruct (Z.gtb_spec i burnin); [ | lia ].
  rewrite Hpost.
  destruct (Sampler.count ps =? step - 1).
  - eexists. split; [ reflexivity | ]. cbn.
    split; [ reflexivity | ]. split; [ | repeat split ].
    eexists. repeat split.
  - eexists. split; [ reflexivity | ]. cbn.
    split; [ reflexivity | ]. split; [ | repeat split ].
    eexists. repeat split.
Qed.

Lemma body_unbound_stats (i : Z) (st : Sampler.loop_state) (w w' : World) (X' : T) :
  burnin < i ->
  Sampler.post st = None ->
  kernel (Sampler.X st) w = Ok X' w' ->
  Sampler.body kernel fft2_abs NRMSE PSNR SSIM logPi x init_extra thin_extra burnin step
               i st w = Raise NameError.
Proof.
  intros Hi Hpost Hk. unfold Sampler.body. rewrite (bind_ok _ _ _ _ _ Hk).
  destruct (Z.eqb_spec i burnin); [ lia | ].
  destruct (Z.gtb_spec i burnin); [ | lia ].
  rewrite Hpost. reflexivity.
Qed.

End BodyFacts.

(** ** The oracles *)

Section OracleClaims.
Context {Idx G : Type}.
Variable E : sampling_tools Idx G.
Variable y : Idx -> R.
Variable sigma : R.
Variable x : Idx -> R.
Variable randn : nat -> (Idx -> R).
Local Open Scope R_scope.

(** C8.  For every [X] the likelihood oracle returns
    [AT(A(X) - y) / sigma^2], entry by entry, for the observation [y] it
    was built with, and [L_y] is [AAT_norm / sigma^2], where [AAT_norm] is
    the norm of [A AT] that [blur_operators] returned.  The value depends
    on [X] alone and nothing is mutated: when a kernel evaluates the
    posterior gradient, in whatever ambient state, the likelihood part of
    the result is that array, the random generator is left as it was, and
    only the count of gradient evaluations moves. *)
Theorem gradf_likelihood_gradient :
  (forall X i, gradf y sigma X (A E) (AT E) i
               = AT E (fun j => A E X j - y j) i / sigma ^ 2) /\
  L_y E sigma = AAT_norm E / sigma ^ 2 /\
  (forall X w,
      eval_grad (grad_f_g E y sigma) X w
      = Ok (fun i => AT E (fun j => A E X j - y j) i / sigma ^ 2 + gradg E sigma X i)
           (mkWorld (rng_draws w) (S (grad_evals w)))).
Proof.
  split; [ | split ].
  - intros X i. reflexivity.
  - reflexivity.
  - intros X w. reflexivity.
Qed.

(** C7.  For every [X] the smoothed-prior oracle returns
    [(X - prox(X)) / lambd], entry by entry, where [prox(X)] is the
    external solver called on [X] with smoothing parameter [theta * lambd]
    and an iteration budget of 25, and [lambd = alpha / L_y] with
    [alpha = 0.99], a fraction strictly between 0 and 1. *)
Theorem gradg_moreau_yosida :
  (forall X i, gradg E sigma X i = (X i - proxg E sigma X i) / lambd E sigma) /\
  (forall X, proxg E sigma X
             = chambolle_prox_TV E X (mkOpts (theta * lambd E sigma) 25)) /\
  lambd E sigma = lambd_frac / L_y E sigma /\
  lambd_frac = 0.99 /\ 0 < lambd_frac < 1.
Proof.
  split; [ | split; [ | split; [ | split ] ] ].
  - intros X i. reflexivity.
  - intros X. reflexivity.
  - unfold lambd, lambda_prox. unfold Rdiv. ring.
  - reflexivity.
  - unfold lambd_frac. lra.
Qed.

(** C6.  The log-posterior reported for diagnostics is
    [- f(X) - theta * g(X)] with the exact total-variation value
    [g(X) = tv(Grad_Image(X))], in both notebooks, and it is the same
    whatever proximal solver is installed: the envelope plays no part in
    it.  The gradient that the kernels receive is the likelihood gradient
    plus [(X - prox(X)) / lambd], and it is the same whatever penalty
    value [tv], [Grad_Image] is installed: the exact penalty plays no part
    in it.  In every pass after the burn-in, each loop appends that
    log-posterior of the state its kernel returned. *)
Theorem logPi_exact_penalty :
  (forall z, logPi E y sigma z
             = - ((matrix_norm_fro E (fun i => y i - A E z i)) ^ 2 / (2 * sigma ^ 2))
               - theta * tv E (Grad_Image E z)) /\
  (forall z, log_pi E y sigma z = logPi E y sigma z) /\
  (forall p z, logPi (with_prox E p) y sigma z = logPi E y sigma z) /\
  (forall (G' : Type) (gi : (Idx -> R) -> G') (t : G' -> R) X,
      grad_f_g (with_penalty E gi t) y sigma X = grad_f_g E y sigma X) /\
  (forall X i, grad_f_g E y sigma X i
               = gradf y sigma X (A E) (AT E) i
                 + (X i - chambolle_prox_TV E X (mkOpts (theta * lambd E sigma) 25) i)
                   / lambd E sigma) /\
  (forall burnin step i st ps w w' X',
      (burnin < i)%Z ->
      Sampler.post st = Some ps ->
      ULA_kernel randn (grad_f_g E y sigma) (Sampler.X st) (delta E sigma) w = Ok X' w' ->
      exists st',
        MYULA_body E y sigma x randn burnin step i st w = Ok st' w' /\
        Sampler.log_pi_trace st' = Sampler.log_pi_trace st ++ [logPi E y sigma X']) /\
  (forall s eta dt_perc burnin step i st ps w w' X',
      (burnin < i)%Z ->
      Sampler.post st = Some ps ->
      SKROCK_kernel randn (Sampler.X st) (L E sigma) s eta dt_perc (grad_f_g E y sigma) w
        = Ok X' w' ->
      exists st',
        SKROCK_body E y sigma x randn s eta dt_perc burnin step i st w = Ok st' w' /\
        Sampler.log_pi_trace st' = Sampler.log_pi_trace st ++ [log_pi E y sigma X']).
Proof.
  split; [ | split; [ | split; [ | split; [ | split; [ | split ] ] ] ] ].
  - intros z. reflexivity.
  - intros z. reflexivity.
  - intros p z. reflexivity.
  - intros G' gi t X. reflexivity.
  - intros X i. reflexivity.
  - intros burnin step i st ps w w' X' Hi Hpost Hk.
    destruct (body_after_burnin
                (fun X => ULA_kernel randn (grad_f_g E y sigma) X (delta E sigma))
                (fft2_abs E) (NRMSE E) (PSNR E) (SSIM E) (logPi E y sigma) x
                (fun _ => tt) (fun u _ => u) burnin step i st ps w w' X' Hi Hpost Hk)
      as (st' & Hrun & _ & _ & _ & _ & _ & Hlog & _).
    exists st'. split; assumption.
  - intros s eta dt_perc burnin step i st ps w w' X' Hi Hpost Hk.
    destruct (body_after_burnin
                (fun X => SKROCK_kernel randn X (L E sigma) s eta dt_perc (grad_f_g E y sigma))
                (fft2_abs E) (NRMSE E) (PSNR E) (SSIM E) (log_pi E y sigma) x
                (fun X => welford (fft2_real E X)) (fun vc X => update vc (fft2_real E X))
                burnin step i st ps w w' X' Hi Hpost Hk)
      as (st' & Hrun & _ & _ & _ & _ & _ & Hlog & _).
    exists st'. split; assumption.
Qed.

End OracleClaims.

(** ** The proximal Langevin kernel *)

Section ULAClaims.
Context {Idx G : Type}.
Variable E : sampling_tools Idx G.
Variable y : Idx -> R.
Variable sigma : R.
Variable randn : nat -> (Idx -> R).
Local Open Scope R_scope.

(** C2, amended.  For every [X] and every step size [dlt >= 0] the
    transition returns, entry by entry,
    [X + dlt * (- grad_f(X) - grad_g(X)) + sqrt(2 dlt) * Z], where
    [grad_g(X) = (X - prox(X)) / lambd] enters without a further factor
    [theta] and [Z] is the next array of the generator; it evaluates the
    posterior gradient once and draws once.  The driver's step is
    [delta = 1 / L] with [L = L_y + 1 / lambd]. *)
Theorem ULA_kernel_transition (X : Idx -> R) (dlt : R) (w : World) :
  0 <= dlt ->
  (exists X',
     ULA_kernel randn (grad_f_g E y sigma) X dlt w
       = Ok X' (mkWorld (S (rng_draws w)) (S (grad_evals w))) /\
     forall i, X' i = X i + dlt * (- gradf y sigma X (A E) (AT E) i - gradg E sigma X i)
                      + sqrt (2 * dlt) * randn (rng_draws w) i) /\
  delta E sigma = 1 / L E sigma /\
  L E sigma = L_y E sigma + 1 / lambd E sigma.
Proof.
  intros Hd. split; [ | split; reflexivity ].
  eexists. split.
  - rewrite ULA_kernel_returns by assumption. reflexivity.
  - intros i. unfold grad_f_g, tadd, tsub, smul. ring.
Qed.

End ULAClaims.

(** C2, as stated, fails: on the two-pixel problem, from the image
    [(1, 0)] with the driver's step [99/199], the first pixel of the state
    returned is [50/199], while the update with [theta * grad_g] gives
    [-499.25/199]. *)
Lemma ULA_kernel_not_theta_scaled :
  exists X' w',
    ULA_kernel Fixture.still (grad_f_g Fixture.tools (Fixture.const 0) 1)
               Fixture.edge (delta Fixture.tools 1) Fixture.start = Ok X' w' /\
    X' true = (50 / 199)%R /\
    ULA_spec Fixture.tools (Fixture.const 0) 1 Fixture.edge
             (delta Fixture.tools 1) (Fixture.still 0) true = (- 499.25 / 199)%R /\
    X' true <> ULA_spec Fixture.tools (Fixture.const 0) 1 Fixture.edge
                        (delta Fixture.tools 1) (Fixture.still 0) true.
Proof.
  assert (Hd : (delta Fixture.tools 1 = 99 / 199)%R).
  { unfold delta, L, L_g, lambd, lambda_prox, lambd_frac, L_y. cbn. lra. }
  assert (Hl : (lambd Fixture.tools 1 = 99 / 100)%R).
  { unfold lambd, lambda_prox, lambd_frac, L_y. cbn. lra. }
  assert (Hp : proxg Fixture.tools 1 Fixture.edge true = (1 / 2)%R).
  { unfold proxg. rewrite Hl. cbn. unfold Fixture.shrink, theta.
    destruct (Rlt_dec _ _) as [Hbig | _]; [ lra | ].
    destruct (Rlt_dec _ _) as [Hsmall | _]; lra. }
  assert (Hcode : ((Fixture.edge - (99 / 199) *: grad_f_g Fixture.tools (Fixture.const 0) 1
                                                   Fixture.edge
                    + sqrt (2 * (99 / 199)) *: Fixture.still 0)%T true = 50 / 199)%R).
  { unfold grad_f_g, gradg, tadd, tsub, smul, sdiv. rewrite Hp, Hl.
    unfold gradf, tsub, sdiv, Fixture.still, Fixture.const, Fixture.edge. cbn. lra. }
  assert (Hspec : (ULA_spec Fixture.tools (Fixture.const 0) 1 Fixture.edge (99 / 199)
                            (Fixture.still 0) true = - 499.25 / 199)%R).
  { unfold ULA_spec, grad_log_p_spec, gradg, tadd, tsub, smul, sdiv. rewrite Hp, Hl.
    unfold gradf, theta, tsub, sdiv, Fixture.still, Fixture.const, Fixture.edge. cbn.
    lra. }
  do 2 eexists. split.
  - apply ULA_kernel_returns. rewrite Hd. lra.
  - rewrite Hd. cbn [rng_draws Fixture.start].
    rewrite Hcode, Hspec. repeat split; lra.
Qed.

(** The oracles on the two-pixel problem, at the image [(1, 0)] with a
    zero observation and unit noise scale. *)
Lemma oracles_on_edge :
  gradf (Fixture.const 0) 1 Fixture.edge (A Fixture.tools) (AT Fixture.tools) true = 1%R /\
  gradg Fixture.tools 1 Fixture.edge true = (50 / 99)%R /\
  logPi Fixture.tools (Fixture.const 0) 1 Fixture.edge = (- (1 / 2) - theta)%R.
Proof.
  assert (Hl : (lambd Fixture.tools 1 = 99 / 100)%R).
  { unfold lambd, lambda_prox, lambd_frac, L_y. cbn. lra. }
  split; [ | split ].
  - unfold gradf, tsub, sdiv, Fixture.const, Fixture.edge. cbn. lra.
  - unfold gradg, tsub, sdiv, proxg. rewrite Hl. cbn. unfold Fixture.shrink, theta.
    destruct (Rlt_dec _ _) as [Hbig | _]; [ lra | ].
    destruct (Rlt_dec _ _) as [Hsmall | _]; lra.
  - unfold logPi, f, g_fun_theta, tsub, Fixture.const, Fixture.edge. cbn.
    replace ((0 - 1) * ((0 - 1) * 1) + (0 - 0) * ((0 - 0) * 1))%R with 1%R by lra.
    rewrite sqrt_1, Rabs_pos_eq by lra. lra.
Qed.

(** An instance: the two-pixel problem, step 1. *)
Lemma ULA_kernel_transition_witness :
  (exists X',
     ULA_kernel Fixture.still (grad_f_g Fixture.tools (Fixture.const 0) 1)
                (Fixture.const 1) 1 Fixture.start
       = Ok X' (mkWorld 1 1) /\
     forall i, X' i = (Fixture.const 1 i
                       + 1 * (- gradf (Fixture.const 0) 1 (Fixture.const 1)
                                      (A Fixture.tools) (AT Fixture.tools) i
                              - gradg Fixture.tools 1 (Fixture.const 1) i)
                       + sqrt (2 * 1) * Fixture.still 0 i)%R) /\
  delta Fixture.tools 1 = (1 / L Fixture.tools 1)%R /\
  L Fixture.tools 1 = (L_y Fixture.tools 1 + 1 / lambd Fixture.tools 1)%R.
Proof.
  apply (ULA_kernel_transition Fixture.tools (Fixture.const 0) 1 Fixture.still
           (Fixture.const 1) 1 Fixture.start).
  lra.
Defined.

(** ** The SK-ROCK kernel *)

Section SKROCKClaims.
Context {Idx : Type}.
Variable randn : nat -> (Idx -> R).
Local Open Scope R_scope.

(** C1, amended.  For every state [X], stage count [s >= 1], damping
    [eta] in (0,1), step fraction [alpha] in (0,1) and constant [L > 0],
    the kernel computes [l_s = (s-0.5)^2 (2 - 4 eta/3) - 1.5], the step
    [alpha * l_s / L], [omega_0 = 1 + eta/s^2] and
    [omega_1 = T_s(omega_0) / T_s'(omega_0)].  For [s >= 2] it runs the
    recursion
    [K_j = - mu_j delta gradU(K_{j-1}) + nu_j K_{j-1} + kappa_j K_{j-2}]
    from [K_0 = X] and [K_1], and returns [K_s], after [s] evaluations of
    [gradU] and one draw.  For [s = 1] the step is negative and the
    kernel raises [ValueError]. *)
Theorem SKROCK_kernel_stage_recursion
    (X : Idx -> R) (Lip : R) (s : Z) (eta alpha : R)
    (gradU : (Idx -> R) -> (Idx -> R)) (w : World) :
  (1 <= s)%Z ->
  0 < eta < 1 -> 0 < alpha < 1 -> 0 < Lip ->
  rhoSKROCK s eta = ell_s s eta /\
  dtSKROCK Lip s eta alpha = delta_s Lip s eta alpha /\
  w0 s eta = omega0 s eta /\
  w1 s eta = omega1 s eta /\
  ((2 <= s)%Z ->
   0 <= delta_s Lip s eta alpha /\
   SKROCK_kernel randn X Lip s eta alpha gradU w =
     Ok (K s eta (delta_s Lip s eta alpha) gradU X
           (sqrt (2 * delta_s Lip s eta alpha) *: randn (rng_draws w))%T (Z.to_nat s))
        (mkWorld (S (rng_draws w)) (grad_evals w + Z.to_nat s))) /\
  (s = 1%Z ->
   delta_s Lip s eta alpha < 0 /\
   SKROCK_kernel randn X Lip s eta alpha gradU w = Raise ValueError).
Proof.
  intros Hs Heta Halpha HL.
  split; [ apply rhoSKROCK_ell_s | ].
  split; [ apply dtSKROCK_delta_s | ].
  split; [ reflexivity | ].
  split; [ reflexivity | ].
  split.
  - intros Hs2.
    assert (Hd : 0 <= delta_s Lip s eta alpha)
      by (apply delta_s_nonneg; [ assumption | assumption | lra | assumption ]).
    split; [ exact Hd | ].
    rewrite <- dtSKROCK_delta_s in *.
    apply SKROCK_kernel_returns; assumption.
  - intros Hs1. subst s.
    assert (Hd : delta_s Lip 1 eta alpha < 0)
      by (apply delta_s_one_neg; [ assumption | lra | assumption ]).
    split; [ exact Hd | ].
    apply SKROCK_kernel_raises. rewrite dtSKROCK_delta_s. exact Hd.
Qed.

(** C9.  Whenever the step size is not negative, so that the transition
    takes place, the kernel draws one array [Z], forms
    [Q = sqrt(2 delta) Z] and computes
    [K_1 = X - mu_1 delta gradU(X + nu_1 Q) + kappa_1 Q] with
    [mu_1 = omega_1/omega_0], [nu_1 = s omega_1/2],
    [kappa_1 = s omega_1/omega_0]; the later stages start from [(K_1, X)],
    take no noise and draw nothing, so the transition draws exactly once;
    and its outcome depends on the generator only through that one array. *)
Theorem SKROCK_kernel_single_noise
    (X : Idx -> R) (Lip : R) (s : Z) (eta alpha : R)
    (gradU : (Idx -> R) -> (Idx -> R)) (w : World) :
  0 <= dtSKROCK Lip s eta alpha ->
  let dt := dtSKROCK Lip s eta alpha in
  let Q := (sqrt (2 * dt) *: randn (rng_draws w))%T in
  let K1 := (X - (mu1 s eta * dt) *: gradU (X + nu1 s eta *: Q) + kappa1 s eta *: Q)%T in
  mu1 s eta = w1 s eta / w0 s eta /\
  nu1 s eta = IZR s * w1 s eta / 2 /\
  kappa1 s eta = IZR s * w1 s eta / w0 s eta /\
  (exists st w',
     for_loop (range 2 (s + 1)) (stage Lip s eta alpha gradU) (K1, X)
              (mkWorld (S (rng_draws w)) (S (grad_evals w))) = Ok st w' /\
     rng_draws w' = S (rng_draws w) /\
     SKROCK_kernel randn X Lip s eta alpha gradU w = Ok (fst st) w') /\
  (forall randn' : nat -> (Idx -> R),
      randn' (rng_draws w) = randn (rng_draws w) ->
      SKROCK_kernel randn' X Lip s eta alpha gradU w
      = SKROCK_kernel randn X Lip s eta alpha gradU w).
Proof.
  intros Hdt dt Q K1.
  split; [ reflexivity | ].
  split; [ reflexivity | ].
  split; [ unfold kappa1, Rdiv; ring | ].
  split.
  - destruct (stages_keep_generator Lip s eta alpha gradU (range 2 (s + 1)) (K1, X)
                (mkWorld (S (rng_draws w)) (S (grad_evals w)))) as [st Hst].
    exists st. eexists. split; [ exact Hst | ]. split; [ reflexivity | ].
    rewrite SKROCK_kernel_first_stage by assumption.
    change (ticked (drew w)) with (mkWorld (S (rng_draws w)) (S (grad_evals w))).
    fold dt. fold Q. fold K1.
    rewrite (bind_ok _ _ _ _ _ Hst). reflexivity.
  - intros randn' Hsame.
    rewrite !SKROCK_kernel_first_stage by assumption.
    rewrite Hsame. reflexivity.
Qed.

(** C4, amended.  With one stage the inner loop is empty,
    [l_1 = - 1 - eta/3], [omega_1 = omega_0 = 1 + eta], so
    [mu_1 = kappa_1 = 1] and [nu_1 = (1 + eta)/2].  Where the step
    [delta = alpha l_1 / L] is not negative the transition returns
    [X - delta gradU(X + nu_1 Q) + Q] with [Q = sqrt(2 delta) Z]: the
    update of the single-evaluation kernel at step [delta], which returns
    [X - delta gradU(X) + Q], except that the gradient is taken at
    [X + nu_1 Q].  For positive [alpha] and [L] and [eta] in (0,1) the
    step is negative and the transition raises [ValueError]. *)
Theorem SKROCK_one_stage
    (X : Idx -> R) (Lip eta alpha : R)
    (gradU : (Idx -> R) -> (Idx -> R)) (w : World) :
  0 < eta ->
  let dt := dtSKROCK Lip 1 eta alpha in
  let Q := (sqrt (2 * dt) *: randn (rng_draws w))%T in
  range 2 (1 + 1) = [] /\
  rhoSKROCK 1 eta = - 1 - eta / 3 /\
  w1 1 eta = w0 1 eta /\ w0 1 eta = 1 + eta /\
  mu1 1 eta = 1 /\ kappa1 1 eta = 1 /\ nu1 1 eta = (1 + eta) / 2 /\
  (0 <= dt ->
   (exists X',
      SKROCK_kernel randn X Lip 1 eta alpha gradU w
        = Ok X' (mkWorld (S (rng_draws w)) (S (grad_evals w))) /\
      forall i, X' i = X i - dt * gradU (X + ((1 + eta) / 2) *: Q)%T i + Q i) /\
   ULA_kernel randn gradU X dt w
     = Ok (X - dt *: gradU X + Q)%T (mkWorld (S (rng_draws w)) (S (grad_evals w)))) /\
  (eta < 1 -> 0 < alpha -> 0 < Lip ->
   SKROCK_kernel randn X Lip 1 eta alpha gradU w = Raise ValueError).
Proof.
  intros Heta dt Q.
  destruct (one_stage_coefficients eta Heta) as (Hmu & Hka & Hnu).
  split; [ reflexivity | ].
  split; [ rewrite rhoSKROCK_ell_s; apply ell_s_one | ].
  split; [ rewrite w0_one; apply w1_one; assumption | ].
  split; [ apply w0_one | ].
  split; [ assumption | ].
  split; [ assumption | ].
  split; [ assumption | ].
  split.
  - intros Hdt. split.
    + destruct (SKROCK_kernel_one_stage_value randn X Lip eta alpha gradU w Heta Hdt)
        as (X' & Hrun & Hval).
      exists X'. split; [ exact Hrun | ].
      intros i. rewrite Hval. unfold Q, dt, smul. reflexivity.
    + rewrite ULA_kernel_returns by assumption. reflexivity.
  - intros Heta1 Ha HL. apply SKROCK_kernel_raises.
    rewrite dtSKROCK_delta_s. apply delta_s_one_neg; lra.
Qed.

End SKROCKClaims.

(** C1, as stated, fails at [s = 1]: with [eta = alpha = 1/2] and [L = 1]
    the step size is negative, the square root raises, and no [K_s] is
    returned. *)
Lemma SKROCK_kernel_one_stage_raises :
  (1 <= 1)%Z /\ (0 < 1 / 2 < 1)%R /\
  SKROCK_kernel Fixture.still (Fixture.const 0) 1 1 (1 / 2) (1 / 2) (fun X => X)
                Fixture.start = Raise ValueError /\
  ~ (exists X' w',
        SKROCK_kernel Fixture.still (Fixture.const 0) 1 1 (1 / 2) (1 / 2) (fun X => X)
                      Fixture.start = Ok X' w').
Proof.
  assert (Hr : SKROCK_kernel Fixture.still (Fixture.const 0) 1 1 (1 / 2) (1 / 2)
                 (fun X => X) Fixture.start = Raise ValueError).
  { apply SKROCK_kernel_raises. rewrite dtSKROCK_delta_s.
    apply delta_s_one_neg; lra. }
  split; [ lia | ]. split; [ lra | ]. split; [ exact Hr | ].
  intros (X' & w' & Hok). rewrite Hr in Hok. discriminate.
Qed.

(** An instance: two stages, [eta = alpha = 1/2], [L = 1]. *)
Lemma SKROCK_kernel_stage_recursion_witness :
  ((1 <= 2)%Z /\ (0 < 1 / 2 < 1)%R /\ (0 < 1)%R) /\
  rhoSKROCK 2 (1 / 2) = ell_s 2 (1 / 2) /\
  dtSKROCK 1 2 (1 / 2) (1 / 2) = delta_s 1 2 (1 / 2) (1 / 2) /\
  w0 2 (1 / 2) = omega0 2 (1 / 2) /\
  w1 2 (1 / 2) = omega1 2 (1 / 2) /\
  SKROCK_kernel Fixture.still (Fixture.const 0) 1 2 (1 / 2) (1 / 2) (fun X => X)
                Fixture.start =
    Ok (K 2 (1 / 2) (delta_s 1 2 (1 / 2) (1 / 2)) (fun X => X) (Fixture.const 0)
          (sqrt (2 * delta_s 1 2 (1 / 2) (1 / 2)) *: Fixture.still 0)%T (Z.to_nat 2))
       (mkWorld 1 (0 + Z.to_nat 2)).
Proof.
  split; [ split; [ lia | split; lra ] | ].
  destruct (SKROCK_kernel_stage_recursion Fixture.still (Fixture.const 0) 1 2 (1 / 2)
              (1 / 2) (fun X => X) Fixture.start
              ltac:(lia) ltac:(lra) ltac:(lra) ltac:(lra))
    as (H1 & H2 & H3 & H4 & H5 & _).
  split; [ exact H1 | ]. split; [ exact H2 | ].
  split; [ exact H3 | ]. split; [ exact H4 | ].
  apply H5. lia.
Defined.

(** C4, as stated, fails.  With one stage, [eta = alpha = 1/2] and
    [L = 1], nothing is returned: the step is negative and the square root
    raises.  With arguments that make the step non-negative ([L = -1], unit
    noise, [gradU] the identity, [X = 0]) the kernel returns another state
    than the single-evaluation kernel run with that step. *)
Lemma SKROCK_one_stage_not_ULA :
  SKROCK_kernel (fun _ => Fixture.const 1) (Fixture.const 0) 1 1 (1 / 2) (1 / 2)
                (fun X => X) Fixture.start = Raise ValueError /\
  exists X1 X2 w1 w2,
    SKROCK_kernel (fun _ => Fixture.const 1) (Fixture.const 0) (-1) 1 (1 / 2) (1 / 2)
                  (fun X => X) Fixture.start = Ok X1 w1 /\
    ULA_kernel (fun _ => Fixture.const 1) (fun X => X) (Fixture.const 0)
               (dtSKROCK (-1) 1 (1 / 2) (1 / 2)) Fixture.start = Ok X2 w2 /\
    X1 true <> X2 true.
Proof.
  assert (Hdt : (dtSKROCK (-1) 1 (1 / 2) (1 / 2) = 7 / 12)%R).
  { unfold dtSKROCK, rhoSKROCK, denNStag. lra. }
  split.
  - apply SKROCK_kernel_raises. rewrite dtSKROCK_delta_s.
    apply delta_s_one_neg; lra.
  - destruct (SKROCK_kernel_one_stage_value (fun _ => Fixture.const 1) (Fixture.const 0)
                (-1) (1 / 2) (1 / 2) (fun X => X) Fixture.start)
      as (X1 & Hrun & Hval); [ lra | rewrite Hdt; lra | ].
    exists X1. eexists. do 2 eexists.
    split; [ exact Hrun | ].
    split; [ apply ULA_kernel_returns; rewrite Hdt; lra | ].
    rewrite Hval, Hdt.
    unfold tadd, tsub, smul, Fixture.const, Fixture.start. cbn [rng_draws].
    assert (Hq : (0 < sqrt (2 * (7 / 12)))%R) by (apply sqrt_lt_R0; lra).
    lra.
Qed.

(** An instance: two stages. *)
Lemma SKROCK_kernel_single_noise_witness :
  (0 <= dtSKROCK 1 2 (1 / 2) (1 / 2))%R /\
  exists X' w',
    SKROCK_kernel Fixture.still (Fixture.const 0) 1 2 (1 / 2) (1 / 2) (fun X => X)
                  Fixture.start = Ok X' w' /\
    rng_draws w' = 1%nat.
Proof.
  assert (Hdt : (0 <= dtSKROCK 1 2 (1 / 2) (1 / 2))%R).
  { unfold dtSKROCK, rhoSKROCK, denNStag. lra. }
  split; [ exact Hdt | ].
  destruct (SKROCK_kernel_single_noise Fixture.still (Fixture.const 0) 1 2 (1 / 2) (1 / 2)
              (fun X => X) Fixture.start Hdt)
    as (_ & _ & _ & (st & w' & _ & Hdraw & Hrun) & _).
  exists (fst st), w'. split; [ exact Hrun | exact Hdraw ].
Defined.

(** An instance: [eta = 1/2]. *)
Lemma SKROCK_one_stage_witness :
  (0 < 1 / 2)%R /\
  mu1 1 (1 / 2) = 1%R /\ kappa1 1 (1 / 2) = 1%R /\ nu1 1 (1 / 2) = ((1 + 1 / 2) / 2)%R /\
  SKROCK_kernel Fixture.still (Fixture.const 0) 1 1 (1 / 2) (1 / 2) (fun X => X)
                Fixture.start = Raise ValueError.
Proof.
  assert (Heta : (0 < 1 / 2)%R) by lra.
  split; [ exact Heta | ].
  destruct (SKROCK_one_stage Fixture.still (Fixture.const 0) 1 (1 / 2) (1 / 2)
              (fun X => X) Fixture.start Heta)
    as (_ & _ & _ & _ & Hmu & Hka & Hnu & _ & Hraise).
  repeat split; try assumption.
  apply Hraise; lra.
Defined.

Section ThinningFacts.
Local Open Scope Z_scope.

Lemma thinning_step_floor (maxit n_samples : Z) :
  0 <= maxit -> 0 < n_samples -> thinning_step maxit n_samples = maxit / n_samples.
Proof.
  intros Hm Hn. unfold thinning_step, int64_div. apply Z.quot_div_nonneg; assumption.
Qed.

Lemma thinned_when_divides (maxit n_samples : Z) :
  0 < n_samples <= maxit -> maxit mod n_samples = 0 ->
  (maxit - 1) / (maxit / n_samples) = n_samples - 1.
Proof.
  intros Hn Hmod.
  pose proof (Z.div_mod maxit n_samples ltac:(lia)) as Hdm.
  assert (Hq : 1 <= maxit / n_samples).
  { apply Z.div_le_lower_bound; lia. }
  symmetry.
  apply (Z.div_unique_pos (maxit - 1) (maxit / n_samples) (n_samples - 1)
           (maxit / n_samples - 1)); nia.
Qed.

Lemma length_zero_nil {V : Type} (l : list V) : Z.of_nat (length l) = 0 -> l = [].
Proof. intros Hl. apply length_zero_iff_nil. lia. Qed.

End ThinningFacts.

(** ** The sampling loops *)

Section LoopClaims.
Context {Idx G : Type}.
Variable E : sampling_tools Idx G.
Variable y : Idx -> R.
Variable sigma : R.
Variable x : Idx -> R.
Variable randn : nat -> (Idx -> R).
Local Open Scope Z_scope.

(** The length of the thinned trace that the two loops produce.  The
    thinning step is [floor(maxit / n_samples)], which is 20 for 1000 and
    50.  One state is retained every [thinning_step] iterations after the
    one that ends the burn-in, so the trace has [floor(P / thinning_step)]
    entries for [P] such iterations: [P] is [maxit - burnin - 1] in the
    proximal Langevin loop, and [maxit - 1] in the SK-ROCK loop, which
    runs [maxit + burnin] iterations; in the latter the length is
    [n_samples - 1] whenever [n_samples] divides [maxit]. *)
Theorem thinned_trace_length
    (maxit burnin n_samples s : Z) (eta dt_perc : R) (w : World) :
  (0 <= AAT_norm E)%R ->
  0 <= burnin ->
  0 < n_samples <= maxit ->
  thinning_step maxit n_samples = maxit / n_samples /\
  thinning_step 1000 50 = 20 /\
  (burnin < maxit ->
   exists st w',
     MYULA_sampling E y sigma x randn maxit burnin n_samples w = Ok st w' /\
     Z.of_nat (length (Sampler.MC_X st))
       = (maxit - burnin - 1) / thinning_step maxit n_samples) /\
  (1 <= s -> (0 <= dtSKROCK (L E sigma) s eta dt_perc)%R ->
   exists st w',
     SKROCK_sampling E y sigma x randn maxit burnin n_samples s eta dt_perc w = Ok st w' /\
     Z.of_nat (length (Sampler.MC_X st)) = (maxit - 1) / thinning_step maxit n_samples /\
     (maxit mod n_samples = 0 -> Z.of_nat (length (Sampler.MC_X st)) = n_samples - 1)).
Proof.
  intros HA Hb Hn.
  assert (Hstep : thinning_step maxit n_samples = maxit / n_samples)
    by (apply thinning_step_floor; lia).
  assert (Hpos : 0 < thinning_step maxit n_samples).
  { rewrite Hstep. apply Z.div_str_pos; lia. }
  split; [ exact Hstep | ]. split; [ reflexivity | ]. split.
  - intros Hlt. unfold MYULA_sampling.
    destruct (MYULA_loop_counts E y sigma x randn burnin
                (thinning_step maxit n_samples) maxit w HA Hb ltac:(lia))
      as (st & Hrun & Hinv).
    exists st. eexists. split; [ exact Hrun | ].
    unfold loop_counts in Hinv.
    destruct (Z.leb_spec maxit burnin); [ lia | ].
    destruct Hinv as (ps & _ & _ & _ & _ & _ & _ & _ & Hthin & _).
    apply Hthin, Hpos.
  - intros Hs Hdt. unfold SKROCK_sampling.
    destruct (SKROCK_loop_counts E y sigma x randn s eta dt_perc burnin
                (thinning_step maxit n_samples) (maxit + burnin) w Hs Hdt Hb ltac:(lia))
      as (st & Hrun & Hinv).
    exists st. eexists. split; [ exact Hrun | ].
    unfold loop_counts in Hinv.
    destruct (Z.leb_spec (maxit + burnin) burnin); [ lia | ].
    destruct Hinv as (ps & _ & _ & _ & _ & _ & _ & _ & Hthin & _).
    destruct (Hthin Hpos) as [Hlen _].
    replace (maxit + burnin - burnin - 1) with (maxit - 1) in Hlen by lia.
    split; [ exact Hlen | ].
    intros Hmod. rewrite Hlen, Hstep. apply thinned_when_divides; assumption.
Qed.

(** C10.  In the pass whose index is the burn-in count both loops build
    the accumulators from the state just produced and leave the metric
    series, the log-posterior series and the trace as they were; up to and
    including that pass these are empty.  After a proximal Langevin run of
    [maxit] iterations, [burnin < maxit], both accumulators hold
    [maxit - burnin] states and each series has [maxit - burnin - 1]
    entries. *)
Theorem burnin_seeds_accumulators (maxit burnin n_samples : Z) (w : World) :
  (0 <= AAT_norm E)%R ->
  0 <= burnin < maxit ->
  let step := thinning_step maxit n_samples in
  (forall st w1 w2 X',
      ULA_kernel randn (grad_f_g E y sigma) (Sampler.X st) (delta E sigma) w1 = Ok X' w2 ->
      MYULA_body E y sigma x randn burnin step burnin st w1 =
      Ok (Sampler.mkLoop X'
            (Some (Sampler.mkStats (welford X') (welford (fft2_abs E X')) tt 0))
            (Sampler.nrmse_values st) (Sampler.psnr_values st) (Sampler.ssim_values st)
            (Sampler.log_pi_trace st) (Sampler.MC_X st)) w2) /\
  (forall s eta dt_perc st w1 w2 X',
      SKROCK_kernel randn (Sampler.X st) (L E sigma) s eta dt_perc (grad_f_g E y sigma) w1
        = Ok X' w2 ->
      SKROCK_body E y sigma x randn s eta dt_perc burnin step burnin st w1 =
      Ok (Sampler.mkLoop X'
            (Some (Sampler.mkStats (welford X') (welford (fft2_abs E X'))
                     (welford (fft2_real E X')) 0))
            (Sampler.nrmse_values st) (Sampler.psnr_values st) (Sampler.ssim_values st)
            (Sampler.log_pi_trace st) (Sampler.MC_X st)) w2) /\
  (forall N, 0 <= N <= burnin + 1 ->
     exists st w',
       MYULA_loop E y sigma x randn burnin step N w = Ok st w' /\
       Sampler.nrmse_values st = [] /\ Sampler.psnr_values st = [] /\
       Sampler.ssim_values st = [] /\ Sampler.log_pi_trace st = [] /\
       Sampler.MC_X st = []) /\
  (exists st w' ps,
     MYULA_sampling E y sigma x randn maxit burnin n_samples w = Ok st w' /\
     Sampler.post st = Some ps /\
     w_n (Sampler.post_meanvar ps) = maxit - burnin /\
     w_n (Sampler.absfouriercoeff ps) = maxit - burnin /\
     Z.of_nat (length (Sampler.nrmse_values st)) = maxit - burnin - 1 /\
     Z.of_nat (length (Sampler.psnr_values st)) = maxit - burnin - 1 /\
     Z.of_nat (length (Sampler.ssim_values st)) = maxit - burnin - 1 /\
     Z.of_nat (length (Sampler.log_pi_trace st)) = maxit - burnin - 1).
Proof.
  intros HA Hb step.
  split; [ | split; [ | split ] ].
  - intros st w1 w2 X' Hk. unfold MYULA_body.
    apply (body_at_burnin
             (fun X => ULA_kernel randn (grad_f_g E y sigma) X (delta E sigma))
             (fft2_abs E) (NRMSE E) (PSNR E) (SSIM E) (logPi E y sigma) x
             (fun _ => tt) (fun u _ => u) burnin step st w1 w2 X' Hk).
  - intros s eta dt_perc st w1 w2 X' Hk. unfold SKROCK_body.
    apply (body_at_burnin
             (fun X => SKROCK_kernel randn X (L E sigma) s eta dt_perc (grad_f_g E y sigma))
             (fft2_abs E) (NRMSE E) (PSNR E) (SSIM E) (log_pi E y sigma) x
             (fun X => welford (fft2_real E X)) (fun vc X => update vc (fft2_real E X))
             burnin step st w1 w2 X' Hk).
  - intros N HN.
    destruct (MYULA_loop_counts E y sigma x randn burnin step N w HA ltac:(lia) ltac:(lia))
      as (st & Hrun & Hinv).
    exists st. eexists. split; [ exact Hrun | ].
    unfold loop_counts in Hinv.
    destruct (Z.leb_spec N burnin).
    + tauto.
    + destruct Hinv as (ps & _ & _ & _ & Hn & Hp & Hs & Hl & Hthin & Hoff).
      assert (HN0 : N - burnin - 1 = 0) by lia. rewrite HN0 in *.
      repeat (split; [ apply length_zero_nil; assumption | ]).
      destruct (Z_lt_le_dec 0 step) as [Hpos | Hnpos].
      * destruct (Hthin Hpos) as [Hlen _]. rewrite Z.div_0_l in Hlen by lia.
        apply length_zero_nil, Hlen.
      * apply (Hoff Hnpos).
  - unfold MYULA_sampling. fold step.
    destruct (MYULA_loop_counts E y sigma x randn burnin step maxit w HA ltac:(lia) ltac:(lia))
      as (st & Hrun & Hinv).
    unfold loop_counts in Hinv.
    destruct (Z.leb_spec maxit burnin); [ lia | ].
    destruct Hinv as (ps & Hpost & Hpm & Haf & Hn & Hp & Hs & Hl & _).
    exists st. eexists. exists ps. split; [ exact Hrun | ].
    repeat split; assumption.
Qed.

End LoopClaims.

Section NoCheckClaim.
Context {T S Ex : Type} {Hops : TensorOps T}.
Variable kernel : T -> M T.
Variable fft2_abs : T -> T.
Variables NRMSE PSNR SSIM : T -> T -> S.
Variable logPi : T -> S.
Variable x : T.
Variable init_extra : T -> Ex.
Variable thin_extra : Ex -> T -> Ex.
Variables burnin step : Z.
Variable advance : World -> World.
Local Open Scope Z_scope.

(** C5, amended.  The loop shared by the two drivers makes no test on the
    state.  If every transition returns, the run of [N] iterations returns
    after all [N] transitions, whatever the states are; and in every pass
    after the burn-in, whatever state [X'] the kernel returned, finite or
    not, [X'] becomes the current state, both accumulators are updated
    with it, the three metrics of the updated mean and the log-posterior
    of [X'] are appended, and [X'] is appended to the trace when the
    thinning counter is due. *)
Theorem sampling_loop_no_finiteness_check :
  (forall X w, exists X', kernel X w = Ok X' (advance w)) ->
  0 <= burnin ->
  (forall N y w, 0 <= N ->
     exists st,
       Sampler.sampling_loop kernel fft2_abs NRMSE PSNR SSIM logPi x init_extra thin_extra
                             burnin step N y w
       = Ok st (Nat.iter (Z.to_nat N) advance w)) /\
  (forall i st ps w w' X',
     burnin < i ->
     Sampler.post st = Some ps ->
     kernel (Sampler.X st) w = Ok X' w' ->
     exists st',
       Sampler.body kernel fft2_abs NRMSE PSNR SSIM logPi x init_extra thin_extra
                    burnin step i st w = Ok st' w' /\
       Sampler.X st' = X' /\
       (exists ps',
          Sampler.post st' = Some ps' /\
          Sampler.post_meanvar ps' = update (Sampler.post_meanvar ps) X' /\
          Sampler.absfouriercoeff ps' = update (Sampler.absfouriercoeff ps) (fft2_abs X')) /\
       Sampler.nrmse_values st' =
         Sampler.nrmse_values st ++ [NRMSE x (get_mean (update (Sampler.post_meanvar ps) X'))] /\
       Sampler.psnr_values st' =
         Sampler.psnr_values st ++ [PSNR x (get_mean (update (Sampler.post_meanvar ps) X'))] /\
       Sampler.ssim_values st' =
         Sampler.ssim_values st ++ [SSIM x (get_mean (update (Sampler.post_meanvar ps) X'))] /\
       Sampler.log_pi_trace st' = Sampler.log_pi_trace st ++ [logPi X'] /\
       Sampler.MC_X st' =
         if Sampler.count ps =? step - 1 then Sampler.MC_X st ++ [X'] else Sampler.MC_X st).
Proof.
  intros Hret Hb. split.
  - intros N y w HN.
    destruct (sampling_loop_counts kernel fft2_abs NRMSE PSNR SSIM logPi x
                init_extra thin_extra burnin step advance Hret N y w Hb HN)
      as (st & Hrun & _).
    exists st. exact Hrun.
  - intros i st ps w w' X' Hi Hpost Hk.
    apply body_after_burnin; assumption.
Qed.

End NoCheckClaim.

Lemma fixture_norm_nonneg : (0 <= AAT_norm Fixture.tools)%R.
Proof. cbn. lra. Qed.

(** C3 on the code, at the values of section 8: with 1000 iterations,
    burn-in 50 and 50 samples wanted, the thinning step is 20, as C3 says,
    but the proximal Langevin loop retains 47 states, not 50 up to one.
    The loop runs [range(maxit)] and spends the burn-in inside it, while
    the thinning step is computed from all of [maxit]; the SK-ROCK loop
    runs [range(maxit + burnin)] and retains 49 states for the same
    values. *)
Lemma MYULA_thinned_trace_short :
  exists st w',
    MYULA_sampling Fixture.tools (Fixture.const 0) 1 (Fixture.const 0) Fixture.still
                   1000 50 50 Fixture.start = Ok st w' /\
    thinning_step 1000 50 = 20%Z /\
    Z.of_nat (length (Sampler.MC_X st)) = 47%Z /\
    ~ within_one (Z.of_nat (length (Sampler.MC_X st))) 50.
Proof.
  destruct (MYULA_loop_counts Fixture.tools (Fixture.const 0) 1 (Fixture.const 0)
              Fixture.still 50 (thinning_step 1000 50) 1000 Fixture.start
              fixture_norm_nonneg ltac:(lia) ltac:(lia))
    as (st & Hrun & Hinv).
  exists st. eexists. split; [ exact Hrun | ].
  split; [ reflexivity | ].
  destruct Hinv as (ps & _ & _ & _ & _ & _ & _ & _ & Hthin & _).
  destruct (Hthin ltac:(reflexivity)) as [Hlen _].
  change ((1000 - 50 - 1) / thinning_step 1000 50)%Z with 47%Z in Hlen.
  split; [ exact Hlen | ].
  rewrite Hlen. unfold within_one. lia.
Qed.

(** The same count by evaluation of the loop, on the tensor type of the
    fixture: 47 states for 1000, 50, 50 over [range(1000)], as the proximal
    Langevin cell runs it, and 49 over [range(1000 + 50)], as the SK-ROCK
    cell runs it. *)
Lemma thinned_trace_evaluated :
  Fixture.trace_length (Fixture.xrun 50 (thinning_step 1000 50) 1000) = Some 47%Z /\
  Fixture.trace_length (Fixture.xrun 50 (thinning_step 1000 50) (1000 + 50)) = Some 49%Z.
Proof. split; vm_compute; reflexivity. Qed.

(** The values of the proximal Langevin notebook itself: 10000 iterations,
    burn-in 500, 2000 samples wanted, 1899 retained. *)
Lemma MYULA_notebook_trace :
  MYULA.burnin = 500%Z /\
  thinning_step MYULA.maxit MYULA.n_samples = 5%Z /\
  exists st w',
    MYULA_sampling Fixture.tools (Fixture.const 0) 1 (Fixture.const 0) Fixture.still
                   MYULA.maxit MYULA.burnin MYULA.n_samples Fixture.start = Ok st w' /\
    Z.of_nat (length (Sampler.MC_X st)) = 1899%Z.
Proof.
  split; [ reflexivity | ]. split; [ reflexivity | ].
  destruct (MYULA_loop_counts Fixture.tools (Fixture.const 0) 1 (Fixture.const 0)
              Fixture.still MYULA.burnin (thinning_step MYULA.maxit MYULA.n_samples)
              MYULA.maxit Fixture.start fixture_norm_nonneg ltac:(vm_compute; discriminate)
              ltac:(vm_compute; discriminate))
    as (st & Hrun & Hinv).
  exists st. eexists. split; [ exact Hrun | ].
  destruct Hinv as (ps & _ & _ & _ & _ & _ & _ & _ & Hthin & _).
  destruct (Hthin ltac:(reflexivity)) as [Hlen _]. exact Hlen.
Qed.

(** The values of the SK-ROCK notebook: 1000 iterations after a burn-in of
    300, 500 samples wanted, 499 retained. *)
Lemma SKROCK_notebook_trace :
  SKROCK.burnin = 300%Z /\
  thinning_step SKROCK.maxit SKROCK.n_samples = 2%Z /\
  exists st w',
    SKROCK_sampling Fixture.tools (Fixture.const 0) 1 (Fixture.const 0) Fixture.still
                    SKROCK.maxit SKROCK.burnin SKROCK.n_samples
                    SKROCK.s SKROCK.eta SKROCK.dt_perc Fixture.start = Ok st w' /\
    Z.of_nat (length (Sampler.MC_X st)) = 499%Z.
Proof.
  split; [ reflexivity | ]. split; [ reflexivity | ].
  assert (Hdt : (0 <= dtSKROCK (L Fixture.tools 1) SKROCK.s SKROCK.eta SKROCK.dt_perc)%R).
  { rewrite dtSKROCK_delta_s. apply delta_s_nonneg.
    - unfold SKROCK.s. lia.
    - unfold SKROCK.eta. lra.
    - unfold SKROCK.dt_perc. lra.
    - unfold L, L_g, lambd, lambda_prox, lambd_frac, L_y. cbn. lra. }
  destruct (SKROCK_loop_counts Fixture.tools (Fixture.const 0) 1 (Fixture.const 0)
              Fixture.still SKROCK.s SKROCK.eta SKROCK.dt_perc SKROCK.burnin
              (thinning_step SKROCK.maxit SKROCK.n_samples)
              (SKROCK.maxit + SKROCK.burnin) Fixture.start
              ltac:(vm_compute; discriminate) Hdt ltac:(vm_compute; discriminate)
              ltac:(vm_compute; discriminate))
    as (st & Hrun & Hinv).
  exists st. eexists. split; [ exact Hrun | ].
  destruct Hinv as (ps & _ & _ & _ & _ & _ & _ & _ & Hthin & _).
  destruct (Hthin ltac:(reflexivity)) as [Hlen _]. exact Hlen.
Qed.

(** An instance: the two-pixel problem, four
    iterations, burn-in 1, two samples wanted. *)
Lemma thinned_trace_length_witness :
  ((0 <= AAT_norm Fixture.tools)%R /\ (0 <= 1)%Z /\ (0 < 2 <= 4)%Z) /\
  thinning_step 4 2 = (4 / 2)%Z /\
  exists st w',
    MYULA_sampling Fixture.tools (Fixture.const 0) 1 (Fixture.const 0) Fixture.still
                   4 1 2 Fixture.start = Ok st w' /\
    Z.of_nat (length (Sampler.MC_X st)) = ((4 - 1 - 1) / thinning_step 4 2)%Z.
Proof.
  split; [ split; [ exact fixture_norm_nonneg | lia ] | ].
  destruct (thinned_trace_length Fixture.tools (Fixture.const 0) 1 (Fixture.const 0)
              Fixture.still 4 1 2 2 (1 / 2)%R (1 / 2)%R Fixture.start
              fixture_norm_nonneg ltac:(lia) ltac:(lia))
    as (Hstep & _ & Hmyula & _).
  split; [ exact Hstep | ].
  apply Hmyula. lia.
Defined.

(** An instance: the two-pixel problem, four
    iterations, burn-in 1. *)
Lemma burnin_seeds_accumulators_witness :
  ((0 <= AAT_norm Fixture.tools)%R /\ (0 <= 1 < 4)%Z) /\
  exists st w' ps,
    MYULA_sampling Fixture.tools (Fixture.const 0) 1 (Fixture.const 0) Fixture.still
                   4 1 2 Fixture.start = Ok st w' /\
    Sampler.post st = Some ps /\
    w_n (Sampler.post_meanvar ps) = (4 - 1)%Z /\
    Z.of_nat (length (Sampler.log_pi_trace st)) = (4 - 1 - 1)%Z.
Proof.
  split; [ split; [ exact fixture_norm_nonneg | lia ] | ].
  destruct (burnin_seeds_accumulators Fixture.tools (Fixture.const 0) 1 (Fixture.const 0)
              Fixture.still 4 1 2 Fixture.start fixture_norm_nonneg ltac:(lia))
    as (_ & _ & _ & (st & w' & ps & Hrun & Hpost & Hpm & _ & _ & _ & _ & Hl)).
  exists st, w', ps. repeat split; assumption.
Defined.

(** C5, as stated, fails.  On the tensor type with a non-finite value,
    with burn-in 1 and thinning step 2, the state is finite after three
    transitions and not finite after the fourth; the run of six iterations
    nevertheless returns after six transitions, and the accumulator, the
    series and the trace have received the non-finite state. *)
Lemma nonfinite_state_is_recorded :
  (exists st w', Fixture.xrun 1 2 3 = Ok st w' /\
                 Fixture.isfinite (Sampler.X st) = true) /\
  (exists st w', Fixture.xrun 1 2 4 = Ok st w' /\
                 Fixture.isfinite (Sampler.X st) = false) /\
  (exists st w' ps,
     Fixture.xrun 1 2 6 = Ok st w' /\
     rng_draws w' = 6%nat /\
     Sampler.post st = Some ps /\
     w_n (Sampler.post_meanvar ps) = 5%Z /\
     Fixture.isfinite (w_mean (Sampler.post_meanvar ps)) = false /\
     Sampler.log_pi_trace st = [Fixture.Fin 3; Fixture.NaN; Fixture.NaN; Fixture.NaN] /\
     Sampler.MC_X st = [Fixture.NaN; Fixture.NaN]).
Proof.
  split; [ | split ].
  - do 2 eexists. split; [ vm_compute; reflexivity | reflexivity ].
  - do 2 eexists. split; [ vm_compute; reflexivity | reflexivity ].
  - do 3 eexists. split; [ vm_compute; reflexivity | ].
    repeat split.
Qed.

Lemma blowup_kernel_returns (X : Fixture.xval) (w : World) :
  exists X', Fixture.blowup_kernel X w = Ok X' (ticked (drew w)).
Proof. eexists. reflexivity. Qed.

(** An instance: the loop on the tensor
    type with a non-finite value. *)
Lemma sampling_loop_no_finiteness_check_witness :
  (0 <= 1)%Z /\
  exists st,
    Fixture.xrun 1 2 6 = Ok st (Nat.iter (Z.to_nat 6) (fun w => ticked (drew w)) Fixture.start).
Proof.
  split; [ lia | ].
  destruct (sampling_loop_no_finiteness_check (Hops:=Fixture.XTensorOps)
              Fixture.blowup_kernel (fun X => X)
              (fun _ m => m) (fun _ m => m) (fun _ m => m) (fun X => X) (Fixture.Fin 0)
              (fun _ => tt) (fun u _ => u) 1 2 (fun w => ticked (drew w))
              blowup_kernel_returns ltac:(lia))
    as [Hrun _].
  apply (Hrun 6%Z (Fixture.Fin 0) Fixture.start). lia.
Defined.

(** * Further properties of the code *)

(** ** The Chebyshev functions and the coefficients of SK-ROCK *)

Section ChebyshevCode.
Local Open Scope R_scope.

Lemma cosh_ge_1 (u : R) : 1 <= cosh u.
Proof.
  unfold cosh. rewrite exp_Ropp.
  pose proof (exp_pos u) as Hp.
  assert (Hi : exp u * / exp u = 1) by (apply Rinv_r; lra).
  assert (Hq : 0 < / exp u) by (apply Rinv_0_lt_compat; assumption).
  pose proof (pow2_ge_0 (exp u - / exp u)) as Hsq.
  assert (Hsum : 4 <= (exp u + / exp u) ^ 2) by nra.
  assert (Hs : 2 <= exp u + / exp u) by nra.
  lra.
Qed.

Lemma arccosh_pos (x : R) : 1 < x -> 0 < arccosh x.
Proof.
  intros Hx. unfold arccosh. rewrite <- ln_1.
  apply ln_increasing; [ lra | ].
  pose proof (sqrt_pos (x ^ 2 - 1)). lra.
Qed.

Lemma sinh_pos (u : R) : 0 < u -> 0 < sinh u.
Proof. intros Hu. rewrite <- sinh_0. apply sinh_lt, Hu. Qed.

Lemma w0_gt_1 (s : Z) (eta : R) : (1 <= s)%Z -> 0 < eta -> 1 < w0 s eta.
Proof.
  intros Hs Heta. unfold w0. apply IZR_le in Hs.
  assert (Hsq : 0 < IZR s ^ 2) by nra.
  assert (0 < eta / IZR s ^ 2) by (apply Rdiv_lt_0_compat; assumption).
  lra.
Qed.

Lemma w0_ge_1 (s : Z) (eta : R) : 0 <= eta -> 1 <= w0 s eta.
Proof.
  intros Heta. unfold w0.
  assert (0 <= eta / IZR s ^ 2).
  { apply div_nonneg; [ assumption | ]. nra. }
  lra.
Qed.

Lemma T_s_zero (x : R) : T_s 0 x = 1.
Proof. exact (cheb_zero x). Qed.

Lemma T_s_recurrence (j : Z) (x : R) :
  1 <= x -> T_s (j + 1) x = 2 * x * T_s j x - T_s (j - 1) x.
Proof. exact (cheb_recurrence j x). Qed.

Lemma T_s_even (j : Z) (x : R) : T_s (- j) x = T_s j x.
Proof.
  unfold T_s. rewrite opp_IZR.
  replace (- IZR j * arccosh x) with (- (IZR j * arccosh x)) by ring.
  unfold cosh. rewrite Ropp_involutive. lra.
Qed.

Lemma T_s_cheb_poly_pair (x : R) (n : nat) :
  1 <= x ->
  T_s (Z.of_nat n) x = cheb_poly n x /\
  T_s (Z.of_nat (Datatypes.S n)) x = cheb_poly (Datatypes.S n) x.
Proof.
  intros Hx. induction n as [ | n [IH0 IH1] ].
  - split; [ apply T_s_zero | apply (T_s_one x Hx) ].
  - split; [ exact IH1 | ].
    change (cheb_poly (Datatypes.S (Datatypes.S n)) x)
      with (2 * x * cheb_poly (Datatypes.S n) x - cheb_poly n x).
    rewrite <- IH0, <- IH1.
    pose proof (T_s_recurrence (Z.of_nat (Datatypes.S n)) x Hx) as Hrec.
    replace (Z.of_nat (Datatypes.S n) + 1)%Z
      with (Z.of_nat (Datatypes.S (Datatypes.S n))) in Hrec by lia.
    replace (Z.of_nat (Datatypes.S n) - 1)%Z with (Z.of_nat n) in Hrec by lia.
    exact Hrec.
Qed.

(** The function [T_s] of the kernel, written with [cosh] and [arccosh],
    is on [x >= 1] the Chebyshev polynomial of the first kind of degree
    [|s|]: it takes the values of the polynomial given by [T_0 = 1],
    [T_1 = x], [T_{j+1} = 2 x T_j - T_{j-1}], and a negative index gives
    the same value as its opposite. *)
Theorem T_s_chebyshev (s : Z) (x : R) :
  1 <= x ->
  T_s s x = cheb_poly (Z.abs_nat s) x.
Proof.
  intros Hx.
  destruct (Z_le_gt_dec 0 s) as [Hs | Hs].
  - destruct (T_s_cheb_poly_pair x (Z.abs_nat s) Hx) as [H _].
    rewrite <- H. f_equal. lia.
  - rewrite <- T_s_even.
    destruct (T_s_cheb_poly_pair x (Z.abs_nat s) Hx) as [H _].
    rewrite <- H. f_equal. lia.
Qed.

(** An instance: degree 3 at 2, where the polynomial is [4 x^3 - 3 x]. *)
Lemma T_s_chebyshev_witness : T_s 3 2 = 26.
Proof.
  rewrite (T_s_chebyshev 3 2) by lra.
  change (Z.abs_nat 3) with 3%nat. cbn [cheb_poly]. lra.
Defined.

(** For a stage count [s >= 1] and a damping [eta > 0] the coefficients of
    the kernel are well defined and positive. *)
Theorem SKROCK_coefficients_positive (s : Z) (eta : R) :
  (1 <= s)%Z -> 0 < eta ->
  1 < w0 s eta /\
  0 < sqrt (w0 s eta ^ 2 - 1) /\
  0 < T_prime_s s (w0 s eta) /\
  (forall js : Z, 1 <= T_s js (w0 s eta)) /\
  0 < w1 s eta /\ 0 < mu1 s eta /\ 0 < nu1 s eta /\ 0 < kappa1 s eta.
Proof.
  intros Hs Heta.
  pose proof (w0_gt_1 s eta Hs Heta) as Hw0.
  assert (Hsq : 0 < sqrt (w0 s eta ^ 2 - 1)) by (apply sqrt_lt_R0; nra).
  assert (HT : forall js : Z, 1 <= T_s js (w0 s eta)) by (intros js; apply cosh_ge_1).
  assert (Hsr : 1 <= IZR s) by (apply IZR_le in Hs; exact Hs).
  assert (HTp : 0 < T_prime_s s (w0 s eta)).
  { unfold T_prime_s. apply Rdiv_lt_0_compat; [ | assumption ].
    apply Rmult_lt_0_compat; [ lra | ].
    apply sinh_pos. apply Rmult_lt_0_compat; [ lra | apply arccosh_pos, Hw0 ]. }
  assert (Hw1 : 0 < w1 s eta).
  { unfold w1. apply Rdiv_lt_0_compat; [ | assumption ]. specialize (HT s). lra. }
  repeat split; try assumption.
  - unfold mu1. apply Rdiv_lt_0_compat; lra.
  - unfold nu1. apply Rdiv_lt_0_compat; [ nra | lra ].
  - unfold kappa1. apply Rmult_lt_0_compat; [ lra | ].
    apply Rdiv_lt_0_compat; lra.
Qed.

Lemma SKROCK_coefficients_positive_witness :
  0 < w1 10 0.05 /\ 0 < mu1 10 0.05 /\ 0 < nu1 10 0.05 /\ 0 < kappa1 10 0.05.
Proof.
  destruct (SKROCK_coefficients_positive 10 0.05 ltac:(lia) ltac:(lra))
    as (_ & _ & _ & _ & H1 & H2 & H3 & H4).
  repeat split; assumption.
Defined.

End ChebyshevCode.

(** ** One stage of the inner loop *)

Section StageFacts.
Context {Idx : Type}.
Variable randn : nat -> (Idx -> R).
Local Open Scope R_scope.

(** One pass of the inner loop evaluates the gradient once at [Xts],
    shifts [Xts] into [XtsMinus2], and the weight [kappa = 1 - nu] it
    puts on [XtsMinus2] is [- T_{js-2}(w0) / T_js(w0)], the value the
    notebook documents. *)
Theorem stage_documented_kappa
    (Lip : R) (s : Z) (eta alpha : R) (gradU : (Idx -> R) -> (Idx -> R))
    (js : Z) (Xts XtsMinus2 : Idx -> R) (w : World) :
  0 <= eta ->
  exists Xts',
    stage Lip s eta alpha gradU js (Xts, XtsMinus2) w
      = Ok (Xts', Xts) (mkWorld (rng_draws w) (S (grad_evals w))) /\
    forall i,
      Xts' i =
        - (2 * w1 s eta * T_s (js - 1) (w0 s eta) / T_s js (w0 s eta))
          * dtSKROCK Lip s eta alpha * gradU Xts i
        + (2 * w0 s eta * T_s (js - 1) (w0 s eta) / T_s js (w0 s eta)) * Xts i
        + (- T_s (js - 2) (w0 s eta) / T_s js (w0 s eta)) * XtsMinus2 i.
Proof.
  intros Heta.
  pose proof (w0_ge_1 s eta Heta) as Hw0.
  pose proof (cosh_ge_1 (IZR js * arccosh (w0 s eta))) as HT.
  fold (T_s js (w0 s eta)) in HT.
  pose proof (T_s_recurrence (js - 1)%Z (w0 s eta) Hw0) as Hrec.
  replace (js - 1 + 1)%Z with js in Hrec by lia.
  replace (js - 1 - 1)%Z with (js - 2)%Z in Hrec by lia.
  eexists. split; [ reflexivity | ].
  intros i. unfold tadd, smul.
  assert (Hk : 1 - 2 * w0 s eta * T_s (js - 1) (w0 s eta) / T_s js (w0 s eta)
               = - T_s (js - 2) (w0 s eta) / T_s js (w0 s eta)).
  { replace (T_s (js - 2) (w0 s eta))
      with (2 * w0 s eta * T_s (js - 1) (w0 s eta) - T_s js (w0 s eta)) by lra.
    field. lra. }
  rewrite Hk. ring.
Qed.

End StageFacts.

Lemma stage_documented_kappa_witness :
  (0 <= 0.05)%R /\
  exists Xts',
    stage 1%R 10 0.05%R 0.99%R (fun X : bool -> R => X) 2
          (Fixture.edge, Fixture.const 0) Fixture.start
      = Ok (Xts', Fixture.edge) (mkWorld 0 1).
Proof.
  split; [ lra | ].
  destruct (stage_documented_kappa 1%R 10 0.05%R 0.99%R (fun X : bool -> R => X) 2
              Fixture.edge (Fixture.const 0) Fixture.start ltac:(lra))
    as (Xts' & Hrun & _).
  exists Xts'. exact Hrun.
Defined.

(** ** When the kernels return *)

Section KernelDomain.
Context {Idx : Type}.
Variable randn : nat -> (Idx -> R).
Local Open Scope R_scope.

(** The proximal Langevin transition returns a state exactly when the
    step size is not negative; with a negative step it raises
    [ValueError]. *)
Theorem ULA_kernel_domain (g : (Idx -> R) -> (Idx -> R)) (X : Idx -> R) (dlt : R) (w : World) :
  ((exists X' w', ULA_kernel randn g X dlt w = Ok X' w') <-> 0 <= dlt) /\
  (ULA_kernel randn g X dlt w = Raise ValueError <-> dlt < 0).
Proof.
  destruct (Rle_lt_dec 0 dlt) as [Hpos | Hneg].
  - pose proof (ULA_kernel_returns randn g X dlt w Hpos) as Hok. split; split.
    + intros _. exact Hpos.
    + intros _. do 2 eexists. exact Hok.
    + intros Hr. rewrite Hok in Hr. discriminate.
    + intros Hn. lra.
  - pose proof (ULA_kernel_raises randn g X dlt w Hneg) as Hr. split; split.
    + intros (X' & w' & Hok). rewrite Hr in Hok. discriminate.
    + intros Hp. lra.
    + intros _. exact Hneg.
    + intros _. exact Hr.
Qed.

(** The SK-ROCK transition returns a state exactly when its step size
    [dt_perc * rho / L] is not negative, and raises [ValueError]
    otherwise; for [L > 0], [dt_perc > 0], [eta] in (0,1) and [s >= 1]
    it returns exactly when [s >= 2]. *)
Theorem SKROCK_kernel_domain
    (X : Idx -> R) (Lip : R) (s : Z) (eta alpha : R)
    (gradU : (Idx -> R) -> (Idx -> R)) (w : World) :
  (1 <= s)%Z ->
  ((exists X' w', SKROCK_kernel randn X Lip s eta alpha gradU w = Ok X' w')
     <-> 0 <= dtSKROCK Lip s eta alpha) /\
  (SKROCK_kernel randn X Lip s eta alpha gradU w = Raise ValueError
     <-> dtSKROCK Lip s eta alpha < 0) /\
  (0 < Lip -> 0 < alpha -> 0 < eta < 1 ->
   ((exists X' w', SKROCK_kernel randn X Lip s eta alpha gradU w = Ok X' w')
      <-> (2 <= s)%Z)).
Proof.
  intros Hs.
  assert (Hdom : ((exists X' w', SKROCK_kernel randn X Lip s eta alpha gradU w = Ok X' w')
                    <-> 0 <= dtSKROCK Lip s eta alpha) /\
                 (SKROCK_kernel randn X Lip s eta alpha gradU w = Raise ValueError
                    <-> dtSKROCK Lip s eta alpha < 0)).
  { destruct (Rle_lt_dec 0 (dtSKROCK Lip s eta alpha)) as [Hpos | Hneg].
    - pose proof (SKROCK_kernel_returns randn Lip s eta alpha gradU X w Hs Hpos) as Hok.
      split; split.
      + intros _. exact Hpos.
      + intros _. do 2 eexists. exact Hok.
      + intros Hr. rewrite Hok in Hr. discriminate.
      + intros Hn. lra.
    - pose proof (SKROCK_kernel_raises randn Lip s eta alpha gradU X w Hneg) as Hr.
      split; split.
      + intros (X' & w' & Hok). rewrite Hr in Hok. discriminate.
      + intros Hp. lra.
      + intros _. exact Hneg.
      + intros _. exact Hr. }
  destruct Hdom as [Hret Hraise].
  split; [ exact Hret | ]. split; [ exact Hraise | ].
  intros HL Ha Heta. rewrite Hret. split.
  - intros Hdt. destruct (Z_le_gt_dec 2 s) as [H2 | H1]; [ exact H2 | ].
    assert (s = 1%Z) by lia. subst s.
    rewrite dtSKROCK_delta_s in Hdt.
    pose proof (delta_s_one_neg Lip eta alpha Heta Ha HL). lra.
  - intros H2. rewrite dtSKROCK_delta_s. apply delta_s_nonneg; try assumption. lra.
Qed.

End KernelDomain.

Lemma SKROCK_kernel_domain_witness :
  (1 <= 10)%Z /\
  ((exists X' w',
       SKROCK_kernel Fixture.still Fixture.edge 1 10 0.05 0.99 (fun X => X) Fixture.start
       = Ok X' w') <-> (2 <= 10)%Z).
Proof.
  split; [ lia | ].
  destruct (SKROCK_kernel_domain Fixture.still Fixture.edge 1 10 0.05 0.99 (fun X => X)
              Fixture.start ltac:(lia)) as (_ & _ & H).
  apply H; lra.
Defined.

Section ZeroStep.
Context {Idx : Type}.
Variable randn : nat -> (Idx -> R).
Local Open Scope R_scope.
Variables (Lip : R) (s : Z) (eta : R) (gradU : (Idx -> R) -> (Idx -> R)).
Variable X : Idx -> R.

Lemma dtSKROCK_zero_fraction : dtSKROCK Lip s eta 0 = 0.
Proof. unfold dtSKROCK, Rdiv. ring. Qed.

Lemma stages_zero_step (l : list Z) : forall (st : (Idx -> R) * (Idx -> R)) (w : World),
  (forall i, fst st i = X i) -> (forall i, snd st i = X i) ->
  exists st' w',
    for_loop l (stage Lip s eta 0 gradU) st w = Ok st' w' /\
    (forall i, fst st' i = X i) /\ (forall i, snd st' i = X i).
Proof.
  induction l as [ | js l IH ]; intros [Xts Xm2] w H1 H2; cbn [fst snd] in *.
  - exists (Xts, Xm2), w. split; [ reflexivity | split; assumption ].
  - cbn [for_loop].
    set (st1 := (((- (2 * w1 s eta * T_s (js - 1) (w0 s eta) / T_s js (w0 s eta))
                   * dtSKROCK Lip s eta 0) *: gradU Xts
                  + (2 * w0 s eta * T_s (js - 1) (w0 s eta) / T_s js (w0 s eta)) *: Xts
                  + (1 - 2 * w0 s eta * T_s (js - 1) (w0 s eta) / T_s js (w0 s eta))
                      *: Xm2)%T, Xts)).
    assert (Hstage : stage Lip s eta 0 gradU js (Xts, Xm2) w = Ok st1 (ticked w))
      by reflexivity.
    rewrite (bind_ok _ _ _ _ _ Hstage).
    apply IH.
    + intros i. unfold st1. cbn [fst]. unfold tadd, smul.
      rewrite dtSKROCK_zero_fraction, H1, H2. ring.
    + intros i. unfold st1. cbn [snd]. apply H1.
Qed.

(** With a zero step fraction the SK-ROCK transition returns the state
    it was given, entry by entry, for every stage count [s >= 1], every
    damping [eta > 0] and every constant [L] that is not zero, whatever
    the gradient and the noise. *)
Theorem SKROCK_kernel_zero_step (w : World) :
  (1 <= s)%Z -> 0 < eta -> Lip <> 0 ->
  exists X' w',
    SKROCK_kernel randn X Lip s eta 0 gradU w = Ok X' w' /\
    forall i, X' i = X i.
Proof.
  intros _ _ _.
  pose proof dtSKROCK_zero_fraction as Hz.
  rewrite SKROCK_kernel_first_stage by (rewrite Hz; lra).
  edestruct (stages_zero_step (range 2 (s + 1))) as (st' & w' & Hrun & Hf & _);
    [ | | erewrite bind_ok by exact Hrun ].
  3: { exists (fst st'), w'. split; [ reflexivity | exact Hf ]. }
  - intros i. cbn [fst]. unfold tadd, tsub, smul. rewrite Hz.
    replace (2 * 0) with 0 by ring. rewrite sqrt_0. ring.
  - intros i. reflexivity.
Qed.

(** With a zero step the proximal Langevin transition returns the state it
    was given, entry by entry. *)
Theorem ULA_kernel_zero_step (g : (Idx -> R) -> (Idx -> R)) (w : World) :
  exists X' w',
    ULA_kernel randn g X 0 w = Ok X' w' /\ forall i, X' i = X i.
Proof.
  do 2 eexists. split.
  - apply ULA_kernel_returns. lra.
  - intros i. unfold tadd, tsub, smul.
    replace (2 * 0) with 0 by ring. rewrite sqrt_0. ring.
Qed.

End ZeroStep.

(** An instance: ten stages, unit noise, from the edge image. *)
Lemma SKROCK_kernel_zero_step_witness :
  exists X' w',
    SKROCK_kernel (fun _ => Fixture.const 1) Fixture.edge 1 10 0.05 0
                  (fun Y : bool -> R => Y) Fixture.start = Ok X' w' /\
    forall i, X' i = Fixture.edge i.
Proof.
  apply (SKROCK_kernel_zero_step (fun _ => Fixture.const 1) 1 10 0.05
           (fun Y : bool -> R => Y) Fixture.edge Fixture.start);
    [ lia | lra | lra ].
Defined.

(** ** A critical point of the potential *)

Section FixedPoint.
Context {Idx : Type}.
Variable randn : nat -> (Idx -> R).
Local Open Scope R_scope.
Variables (Lip : R) (s : Z) (eta alpha : R) (gradU : (Idx -> R) -> (Idx -> R)).
Variable X : Idx -> R.
Hypothesis critical : forall i, gradU X i = 0.

Lemma stages_at_critical_point (l : list Z) : forall (w : World),
  exists w', for_loop l (stage Lip s eta alpha gradU) (X, X) w = Ok (X, X) w'.
Proof.
  induction l as [ | js l IH ]; intros w.
  - exists w. reflexivity.
  - cbn [for_loop].
    assert (Hstage : stage Lip s eta alpha gradU js (X, X) w = Ok (X, X) (ticked w)).
    { unfold stage, eval_grad, bind, ret. f_equal. f_equal.
      apply functional_extensionality. intros i.
      unfold tadd, smul. rewrite critical. ring. }
    rewrite (bind_ok _ _ _ _ _ Hstage). apply IH.
Qed.

(** Where the gradient vanishes, the SK-ROCK transition with a zero noise
    array returns the state it was given, for every stage count [s >= 1],
    every damping [eta > 0], every constant [L] that is not zero and every
    non-negative step: in each stage the weights of the two previous
    iterates add up to one. *)
Theorem SKROCK_kernel_critical_point (w : World) :
  (1 <= s)%Z -> 0 < eta -> Lip <> 0 ->
  0 <= dtSKROCK Lip s eta alpha ->
  (forall i, randn (rng_draws w) i = 0) ->
  exists w', SKROCK_kernel randn X Lip s eta alpha gradU w = Ok X w'.
Proof.
  intros _ _ _ Hdt Hzero.
  rewrite SKROCK_kernel_first_stage by assumption.
  assert (HQ : (sqrt (2 * dtSKROCK Lip s eta alpha) *: randn (rng_draws w))%T
               = (fun _ => 0)).
  { apply functional_extensionality. intros i. unfold smul. rewrite Hzero. ring. }
  rewrite HQ.
  assert (Harg : (X + nu1 s eta *: (fun _ : Idx => 0))%T = X).
  { apply functional_extensionality. intros i. unfold tadd, smul. ring. }
  rewrite Harg.
  assert (HK1 : (X - (mu1 s eta * dtSKROCK Lip s eta alpha) *: gradU X
                 + kappa1 s eta *: (fun _ : Idx => 0))%T = X).
  { apply functional_extensionality. intros i. unfold tadd, tsub, smul.
    rewrite critical. ring. }
  rewrite HK1.
  destruct (stages_at_critical_point (range 2 (s + 1)) (ticked (drew w))) as [w' Hrun].
  exists w'. rewrite (bind_ok _ _ _ _ _ Hrun). reflexivity.
Qed.

End FixedPoint.

Lemma SKROCK_kernel_critical_point_witness :
  (forall i : bool, (fun Y : bool -> R => (fun b => Y b - Fixture.edge b)%R) Fixture.edge i = 0%R) /\
  (0 <= dtSKROCK 1 10 0.05 0.99)%R /\
  exists w',
    SKROCK_kernel Fixture.still Fixture.edge 1 10 0.05 0.99
                  (fun Y => (fun b => Y b - Fixture.edge b)%R) Fixture.start
    = Ok Fixture.edge w'.
Proof.
  assert (Hc : forall i : bool,
             (fun Y : bool -> R => (fun b => Y b - Fixture.edge b)%R) Fixture.edge i = 0%R)
    by (intros i; cbn; lra).
  assert (Hdt : (0 <= dtSKROCK 1 10 0.05 0.99)%R).
  { rewrite dtSKROCK_delta_s. apply delta_s_nonneg; try lra. lia. }
  split; [ exact Hc | ]. split; [ exact Hdt | ].
  apply (SKROCK_kernel_critical_point Fixture.still 1 10 0.05 0.99
           (fun Y => (fun b => Y b - Fixture.edge b)%R) Fixture.edge Hc Fixture.start
           ltac:(lia) ltac:(lra) ltac:(lra) Hdt).
  intros i. reflexivity.
Defined.

(** ** The derivative of the Chebyshev function *)

Section ChebyshevDerivative.
Local Open Scope R_scope.

Lemma derivable_pt_lim_sq_minus_one (x : R) :
  derivable_pt_lim (fun t => t ^ 2 - 1) x (2 * x).
Proof.
  replace (2 * x) with (INR 2 * x ^ 1 - 0) by (simpl; ring).
  apply (derivable_pt_lim_minus (fun t => t ^ 2) (fct_cte 1)).
  - apply derivable_pt_lim_pow.
  - apply derivable_pt_lim_const.
Qed.

Lemma derivable_pt_lim_arccosh (x : R) :
  1 < x -> derivable_pt_lim arccosh x (/ sqrt (x ^ 2 - 1)).
Proof.
  intros Hx.
  assert (Hin : 0 < x ^ 2 - 1) by nra.
  assert (Hr : 0 < sqrt (x ^ 2 - 1)) by (apply sqrt_lt_R0; assumption).
  assert (Hu : 0 < x + sqrt (x ^ 2 - 1)) by lra.
  assert (Hroot : derivable_pt_lim (fun t => sqrt (t ^ 2 - 1)) x
                    (/ (2 * sqrt (x ^ 2 - 1)) * (2 * x))).
  { apply (derivable_pt_lim_comp (fun t => t ^ 2 - 1) sqrt x).
    - apply derivable_pt_lim_sq_minus_one.
    - apply derivable_pt_lim_sqrt, Hin. }
  assert (Harg : derivable_pt_lim (fun t => t + sqrt (t ^ 2 - 1)) x
                   (1 + / (2 * sqrt (x ^ 2 - 1)) * (2 * x))).
  { apply (derivable_pt_lim_plus id (fun t => sqrt (t ^ 2 - 1))).
    - apply derivable_pt_lim_id.
    - exact Hroot. }
  assert (Hval : / sqrt (x ^ 2 - 1)
                 = / (x + sqrt (x ^ 2 - 1)) * (1 + / (2 * sqrt (x ^ 2 - 1)) * (2 * x))).
  { field. split; lra. }
  rewrite Hval. unfold arccosh.
  apply (derivable_pt_lim_comp (fun t => t + sqrt (t ^ 2 - 1)) ln x).
  - exact Harg.
  - apply derivable_pt_lim_ln, Hu.
Qed.

(** [T_prime_s] is the derivative of [T_s] at every [x > 1], as the
    comment of the kernel says. *)
Theorem T_prime_s_is_derivative (s : Z) (x : R) :
  1 < x -> derivable_pt_lim (T_s s) x (T_prime_s s x).
Proof.
  intros Hx.
  assert (Hinner : derivable_pt_lim (fun t => IZR s * arccosh t) x
                     (IZR s * / sqrt (x ^ 2 - 1))).
  { apply (derivable_pt_lim_scal arccosh (IZR s) x).
    apply derivable_pt_lim_arccosh, Hx. }
  replace (T_prime_s s x)
    with (sinh (IZR s * arccosh x) * (IZR s * / sqrt (x ^ 2 - 1)))
    by (unfold T_prime_s, Rdiv; ring).
  apply (derivable_pt_lim_comp (fun t => IZR s * arccosh t) cosh x).
  - exact Hinner.
  - apply derivable_pt_lim_cosh.
Qed.

Lemma T_prime_s_is_derivative_witness :
  derivable_pt_lim (T_s 10) 2 (T_prime_s 10 2).
Proof. apply (T_prime_s_is_derivative 10 2). lra. Defined.

End ChebyshevDerivative.

(** ** The loop as a chain of transitions *)

Section ChainFacts.
Context {T S Ex : Type} {Hops : TensorOps T}.
Variable kernel : T -> M T.
Variable fft2_abs : T -> T.
Variables NRMSE PSNR SSIM : T -> T -> S.
Variable logPi : T -> S.
Variable x : T.
Variable init_extra : T -> Ex.
Variable thin_extra : Ex -> T -> Ex.
Variables burnin step : Z.
Local Open Scope Z_scope.

Lemma body_chain (i : Z) (st : Sampler.loop_state) (w : World) :
  (burnin < i -> Sampler.post st <> None) ->
  match kernel (Sampler.X st) w with
  | Raise e =>
      Sampler.body kernel fft2_abs NRMSE PSNR SSIM logPi x init_extra thin_extra burnin step
                   i st w = Raise e
  | Ok X' w' =>
      exists st',
        Sampler.body kernel fft2_abs NRMSE PSNR SSIM logPi x init_extra thin_extra burnin step
                     i st w = Ok st' w' /\
        Sampler.X st' = X' /\
        (burnin < i + 1 -> Sampler.post st' <> None)
  end.
Proof.
  intros Hbound.
  destruct (kernel (Sampler.X st) w) as [X' w' | e] eqn:Hk.
  - destruct (Z.lt_trichotomy i burnin) as [Hlt | [Heq | Hgt]].
    + eexists. split; [ apply body_before_burnin; eassumption | ].
      split; [ reflexivity | ]. intros Hi. lia.
    + subst i. eexists. split; [ apply body_at_burnin; eassumption | ].
      split; [ reflexivity | ]. intros _. discriminate.
    + destruct (Sampler.post st) as [ps | ] eqn:Hpost; [ | exfalso; apply (Hbound Hgt); reflexivity ].
      destruct (body_after_burnin kernel fft2_abs NRMSE PSNR SSIM logPi x init_extra
                  thin_extra burnin step i st ps w w' X' Hgt Hpost Hk)
        as (st' & Hrun & HX & (ps' & Hpost' & _) & _).
      exists st'. split; [ exact Hrun | ]. split; [ exact HX | ].
      intros _. rewrite Hpost'. discriminate.
  - apply body_kernel_raises, Hk.
Qed.

Lemma loop_chain (n : nat) : forall (a : nat) (st : Sampler.loop_state) (w : World),
  (burnin < Z.of_nat a -> Sampler.post st <> None) ->
  chain_view
    (for_loop (map (fun k => 0 + Z.of_nat k) (seq a n))
       (Sampler.body kernel fft2_abs NRMSE PSNR SSIM logPi x init_extra thin_extra burnin step)
       st w)
  = transitions kernel n (Sampler.X st) w.
Proof.
  induction n as [ | n IH ]; intros a st w Hbound.
  - reflexivity.
  - cbn [seq map for_loop transitions].
    pose proof (body_chain (0 + Z.of_nat a) st w) as Hbody.
    rewrite Z.add_0_l in Hbody. specialize (Hbody Hbound).
    destruct (kernel (Sampler.X st) w) as [X' w' | e] eqn:Hk.
    + destruct Hbody as (st' & Hrun & HX & Hbound').
      rewrite Z.add_0_l.
      rewrite (bind_ok _ _ _ _ _ Hrun), (bind_ok _ _ _ _ _ Hk).
      rewrite <- HX. apply IH.
      intros Hi. apply Hbound'. lia.
    + rewrite Z.add_0_l.
      rewrite (bind_raise _ _ _ _ Hbody), (bind_raise _ _ _ _ Hk). reflexivity.
Qed.

(** With a burn-in that is not negative, the state and the ambient state
    that a run of [N] iterations ends with are those of [N] successive
    transitions from the initial state, and the run raises exactly the
    exception that these transitions raise: the burn-in, the thinning step,
    the metrics and the accumulators have no effect on the chain. *)
Theorem sampling_loop_chain (N : Z) (y : T) (w : World) :
  0 <= burnin ->
  chain_view
    (Sampler.sampling_loop kernel fft2_abs NRMSE PSNR SSIM logPi x init_extra thin_extra
                           burnin step N y w)
  = transitions kernel (Z.to_nat N) y w.
Proof.
  intros Hb. unfold Sampler.sampling_loop. rewrite range_unfold.
  replace (Z.to_nat (N - 0)) with (Z.to_nat N) by lia.
  apply (loop_chain (Z.to_nat N) 0 (Sampler.init_state y) w).
  cbn. lia.
Qed.

(** With a negative burn-in, the first iteration reads the accumulators
    before they are bound: if the first transition returns, the run raises
    [NameError]. *)
Theorem sampling_loop_negative_burnin (N : Z) (y : T) (w : World) :
  burnin < 0 ->
  1 <= N ->
  (exists X' w', kernel y w = Ok X' w') ->
  Sampler.sampling_loop kernel fft2_abs NRMSE PSNR SSIM logPi x init_extra thin_extra
                        burnin step N y w
  = Raise NameError.
Proof.
  intros Hb HN (X' & w' & Hk).
  unfold Sampler.sampling_loop. rewrite range_unfold.
  replace (Z.to_nat (N - 0)) with (Datatypes.S (Z.to_nat (N - 1))) by lia.
  cbn [seq map for_loop].
  apply bind_raise.
  apply (body_unbound_stats kernel fft2_abs NRMSE PSNR SSIM logPi x init_extra thin_extra
           burnin step (0 + Z.of_nat 0) (Sampler.init_state y) w w' X').
  - cbn. lia.
  - reflexivity.
  - exact Hk.
Qed.

End ChainFacts.

Lemma sampling_loop_chain_witness :
  (0 <= 1)%Z /\
  chain_view (Fixture.xrun 1 2 6) = transitions Fixture.blowup_kernel 6 (Fixture.Fin 0) Fixture.start.
Proof.
  split; [ lia | ].
  apply (sampling_loop_chain (Hops:=Fixture.XTensorOps) Fixture.blowup_kernel (fun X => X)
           (fun _ m => m) (fun _ m => m) (fun _ m => m) (fun X => X) (Fixture.Fin 0)
           (fun _ => tt) (fun u _ => u) 1 2 6 (Fixture.Fin 0) Fixture.start).
  lia.
Defined.

Lemma sampling_loop_negative_burnin_witness :
  ((-1 < 0)%Z /\ (1 <= 6)%Z) /\
  Fixture.xrun (-1) 2 6 = Raise NameError.
Proof.
  split; [ lia | ].
  apply (sampling_loop_negative_burnin (Hops:=Fixture.XTensorOps) Fixture.blowup_kernel
           (fun X => X) (fun _ m => m) (fun _ m => m) (fun _ m => m) (fun X => X)
           (Fixture.Fin 0) (fun _ => tt) (fun u _ => u) (-1) 2 6 (Fixture.Fin 0) Fixture.start).
  - lia.
  - lia.
  - do 2 eexists. reflexivity.
Defined.

(** ** What the loop has stored *)

Section ThinningNat.

Lemma thin_nat_append (P q : nat) :
  (0 < q)%nat -> (P mod q = q - 1)%nat ->
  (Datatypes.S P / q = Datatypes.S (P / q))%nat /\ (Datatypes.S P mod q = 0)%nat /\
  ((P / q + 1) * q = P + 1)%nat.
Proof.
  intros Hq Hmod.
  pose proof (Nat.div_mod_eq P q) as Hdm.
  assert (Heq : (Datatypes.S P = q * Datatypes.S (P / q) + 0)%nat) by nia.
  split; [ | split ].
  - symmetry. apply (Nat.div_unique (Datatypes.S P) q (Datatypes.S (P / q)) 0); lia.
  - symmetry. apply (Nat.mod_unique (Datatypes.S P) q (Datatypes.S (P / q)) 0); lia.
  - nia.
Qed.

Lemma thin_nat_skip (P q : nat) :
  (0 < q)%nat -> (P mod q <> q - 1)%nat ->
  (Datatypes.S P / q = P / q)%nat /\ (Datatypes.S P mod q = Datatypes.S (P mod q))%nat.
Proof.
  intros Hq Hmod.
  pose proof (Nat.div_mod_eq P q) as Hdm.
  pose proof (Nat.mod_upper_bound P q ltac:(lia)) as Hb.
  assert (Heq : (Datatypes.S P = q * (P / q) + Datatypes.S (P mod q))%nat) by nia.
  split.
  - symmetry. apply (Nat.div_unique (Datatypes.S P) q (P / q) (Datatypes.S (P mod q))); lia.
  - symmetry. apply (Nat.mod_unique (Datatypes.S P) q (P / q) (Datatypes.S (P mod q))); lia.
Qed.

Lemma map_seq_snoc {V : Type} (g : nat -> V) (m : nat) :
  map g (seq 0 (Datatypes.S m)) = map g (seq 0 m) ++ [g m].
Proof. rewrite seq_S, map_app. reflexivity. Qed.

Lemma accumulated_snoc {T : Type} {Hops : TensorOps T} (first : T) (rest : nat -> T) (m : nat) :
  accumulated first rest (Datatypes.S m) = update (accumulated first rest m) (rest m).
Proof.
  unfold accumulated. rewrite map_seq_snoc, fold_left_app. reflexivity.
Qed.

End ThinningNat.

Section ContentsFacts.
Context {T S Ex : Type} {Hops : TensorOps T}.
Variable kernel : T -> M T.
Variable next : T -> World -> T.
Variable advance : World -> World.
Hypothesis kernel_spec : forall X w, kernel X w = Ok (next X w) (advance w).
Variable fft2_abs : T -> T.
Variables NRMSE PSNR SSIM : T -> T -> S.
Variable logPi : T -> S.
Variable x : T.
Variable init_extra : T -> Ex.
Variable thin_extra : Ex -> T -> Ex.
Variables b q : nat.
Hypothesis q_pos : (0 < q)%nat.
Variable y : T.
Variable w0 : World.

Lemma body_contents (a : nat) (st : Sampler.loop_state) :
  Sampler.X st = fst (orbit next advance a y w0) ->
  ((a <= b)%nat -> Sampler.post st = None /\ Sampler.nrmse_values st = [] /\
                   Sampler.psnr_values st = [] /\ Sampler.ssim_values st = [] /\
                   Sampler.log_pi_trace st = [] /\ Sampler.MC_X st = []) ->
  ((b < a)%nat ->
   loop_contents fft2_abs NRMSE PSNR SSIM logPi x
                 (fun k => fst (orbit next advance k y w0)) b q a st) ->
  exists st',
    Sampler.body kernel fft2_abs NRMSE PSNR SSIM logPi x init_extra thin_extra
                 (Z.of_nat b) (Z.of_nat q) (Z.of_nat a) st (snd (orbit next advance a y w0))
      = Ok st' (snd (orbit next advance (Datatypes.S a) y w0)) /\
    Sampler.X st' = fst (orbit next advance (Datatypes.S a) y w0) /\
    ((Datatypes.S a <= b)%nat ->
       Sampler.post st' = None /\ Sampler.nrmse_values st' = [] /\
       Sampler.psnr_values st' = [] /\ Sampler.ssim_values st' = [] /\
       Sampler.log_pi_trace st' = [] /\ Sampler.MC_X st' = []) /\
    ((b < Datatypes.S a)%nat ->
     loop_contents fft2_abs NRMSE PSNR SSIM logPi x
                   (fun k => fst (orbit next advance k y w0)) b q (Datatypes.S a) st').
Proof.
  intros HX Hpre Hpost.
  set (state := fun k => fst (orbit next advance k y w0)) in *.
  assert (Hk : kernel (Sampler.X st) (snd (orbit next advance a y w0))
               = Ok (state (Datatypes.S a)) (snd (orbit next advance (Datatypes.S a) y w0))).
  { rewrite kernel_spec, HX. reflexivity. }
  destruct (Nat.lt_trichotomy a b) as [Hlt | [Heq | Hgt]].
  - (* during the burn-in *)
    eexists. split.
    { apply body_before_burnin; [ lia | exact Hk ]. }
    cbn. split; [ reflexivity | ]. split.
    + intros _. apply Hpre. lia.
    + intros Hc. lia.
  - (* the iteration that ends the burn-in *)
    subst a. destruct (Hpre (Nat.le_refl b)) as (_ & Hn & Hp & Hs & Hl & Hm).
    eexists. split.
    { apply body_at_burnin. exact Hk. }
    cbn. split; [ reflexivity | ]. split; [ intros Hc; lia | ].
    intros _. unfold loop_contents.
    replace (Datatypes.S b - b - 1)%nat with 0%nat by lia.
    replace (b + 1)%nat with (Datatypes.S b) by lia.
    split; [ reflexivity | ].
    eexists. split; [ reflexivity | ]. cbn.
    rewrite Hn, Hp, Hs, Hl, Hm, Nat.Div0.mod_0_l, Nat.Div0.div_0_l.
    repeat split.
  - (* after the burn-in *)
    destruct (Hpost Hgt) as (_ & ps & Hps & Hpm & Haf & Hcount & Hn & Hp & Hs & Hl & Hm).
    destruct (body_after_burnin kernel fft2_abs NRMSE PSNR SSIM logPi x init_extra
                thin_extra (Z.of_nat b) (Z.of_nat q) (Z.of_nat a) st ps _ _ _
                ltac:(lia) Hps Hk)
      as (st' & Hrun & HX' & (ps' & Hps' & Hpm' & Haf') & Hn' & Hp' & Hs' & Hl' & Hm').
    exists st'. split; [ exact Hrun | ]. split; [ exact HX' | ].
    split; [ intros Hc; lia | ].
    intros _. unfold loop_contents.
    replace (Datatypes.S a - b - 1)%nat with (Datatypes.S (a - b - 1)) by lia.
    set (P := (a - b - 1)%nat) in *.
    assert (Hlater : state (Datatypes.S a) = state (b + 2 + P)%nat)
      by (f_equal; unfold P; lia).
    split; [ exact HX' | ].
    exists ps'. split; [ exact Hps' | ].
    rewrite !map_seq_snoc, !accumulated_snoc.
    rewrite <- Hlater, <- Hpm, <- Haf, <- Hn, <- Hp, <- Hs, <- Hl.
    split; [ exact Hpm' | ]. split; [ exact Haf' | ].
    assert (Hrest : Sampler.nrmse_values st'
                    = Sampler.nrmse_values st
                      ++ [NRMSE x (get_mean (update (Sampler.post_meanvar ps)
                                               (state (Datatypes.S a))))] /\
                    Sampler.psnr_values st'
                    = Sampler.psnr_values st
                      ++ [PSNR x (get_mean (update (Sampler.post_meanvar ps)
                                              (state (Datatypes.S a))))] /\
                    Sampler.ssim_values st'
                    = Sampler.ssim_values st
                      ++ [SSIM x (get_mean (update (Sampler.post_meanvar ps)
                                              (state (Datatypes.S a))))] /\
                    Sampler.log_pi_trace st'
                    = Sampler.log_pi_trace st ++ [logPi (state (Datatypes.S a))])
      by (repeat split; assumption).
    (* the thinning counter *)
    assert (Hthin : Sampler.count ps' = Z.of_nat (Datatypes.S P mod q) /\
                    Sampler.MC_X st'
                    = map (fun k => state (b + 1 + (k + 1) * q)%nat)
                          (seq 0 (Datatypes.S P / q))).
    { clear Hrest.
      pose proof Hrun as Hrun2. unfold Sampler.body in Hrun2.
      rewrite (bind_ok _ _ _ _ _ Hk) in Hrun2.
      destruct (Z.eqb_spec (Z.of_nat a) (Z.of_nat b)) as [Hc | _]; [ lia | ].
      destruct (Z.gtb_spec (Z.of_nat a) (Z.of_nat b)) as [_ | Hc]; [ | lia ].
      rewrite Hps in Hrun2.
      destruct (Z.eqb_spec (Sampler.count ps) (Z.of_nat q - 1)) as [Hdue | Hnot].
      - assert (HPq : (P mod q = q - 1)%nat) by lia.
        destruct (thin_nat_append P q q_pos HPq) as (Hd & Hmo & Hidx).
        injection Hrun2 as Hst'. subst st'. cbn in Hps'. injection Hps' as Hps'. subst ps'.
        cbn. rewrite Hd, Hmo, map_seq_snoc, <- Hm. split; [ reflexivity | ].
        change (next (fst (orbit next advance a y w0)) (snd (orbit next advance a y w0)))
          with (state (Datatypes.S a)).
        do 2 f_equal. apply (f_equal state). unfold P in *. lia.
      - assert (HPq : (P mod q <> q - 1)%nat) by lia.
        destruct (thin_nat_skip P q q_pos HPq) as (Hd & Hmo).
        injection Hrun2 as Hst'. subst st'. cbn in Hps'. injection Hps' as Hps'. subst ps'.
        cbn. rewrite Hd, Hmo, <- Hm. split; [ lia | reflexivity ]. }
    destruct Hthin as [Hc' Hm''].
    destruct Hrest as (R1 & R2 & R3 & R4).
    split; [ exact Hc' | ].
    split; [ exact R1 | ]. split; [ exact R2 | ]. split; [ exact R3 | ].
    split; [ exact R4 | exact Hm'' ].
Qed.

End ContentsFacts.

Section ContentsLoop.
Context {T S Ex : Type} {Hops : TensorOps T}.
Variable kernel : T -> M T.
Variable next : T -> World -> T.
Variable advance : World -> World.
Variable fft2_abs : T -> T.
Variables NRMSE PSNR SSIM : T -> T -> S.
Variable logPi : T -> S.
Variable x : T.
Variable init_extra : T -> Ex.
Variable thin_extra : Ex -> T -> Ex.

Lemma loop_contents_range (b q : nat) (y : T) (w0 : World) (n : nat) :
  (forall X w, kernel X w = Ok (next X w) (advance w)) ->
  (0 < q)%nat ->
  forall (a : nat) (st : Sampler.loop_state),
  Sampler.X st = fst (orbit next advance a y w0) ->
  ((a <= b)%nat -> Sampler.post st = None /\ Sampler.nrmse_values st = [] /\
                   Sampler.psnr_values st = [] /\ Sampler.ssim_values st = [] /\
                   Sampler.log_pi_trace st = [] /\ Sampler.MC_X st = []) ->
  ((b < a)%nat ->
   loop_contents fft2_abs NRMSE PSNR SSIM logPi x
                 (fun k => fst (orbit next advance k y w0)) b q a st) ->
  exists st',
    for_loop (map (fun k => (0 + Z.of_nat k)%Z) (seq a n))
      (Sampler.body kernel fft2_abs NRMSE PSNR SSIM logPi x init_extra thin_extra
                    (Z.of_nat b) (Z.of_nat q))
      st (snd (orbit next advance a y w0))
      = Ok st' (snd (orbit next advance (a + n) y w0)) /\
    ((b < a + n)%nat ->
     loop_contents fft2_abs NRMSE PSNR SSIM logPi x
                   (fun k => fst (orbit next advance k y w0)) b q (a + n) st').
Proof.
  intros Hspec Hq. induction n as [ | n IH ]; intros a st HX Hpre Hpost.
  - exists st. rewrite Nat.add_0_r. split; [ reflexivity | exact Hpost ].
  - cbn [seq map for_loop]. rewrite Z.add_0_l.
    destruct (body_contents kernel next advance Hspec fft2_abs NRMSE PSNR SSIM logPi x
                init_extra thin_extra b q Hq y w0 a st HX Hpre Hpost)
      as (st1 & Hrun & HX1 & Hpre1 & Hpost1).
    rewrite (bind_ok _ _ _ _ _ Hrun).
    destruct (IH (Datatypes.S a) st1 HX1 Hpre1 Hpost1) as (st2 & Hrest & Hpost2).
    exists st2. replace (a + Datatypes.S n)%nat with (Datatypes.S a + n)%nat by lia.
    split; assumption.
Qed.

Lemma sampling_loop_contents (burnin step N : Z) (y : T) (w : World) :
  (forall X w, kernel X w = Ok (next X w) (advance w)) ->
  (0 <= burnin < N)%Z -> (0 < step)%Z ->
  exists st,
    Sampler.sampling_loop kernel fft2_abs NRMSE PSNR SSIM logPi x init_extra thin_extra
                          burnin step N y w
      = Ok st (snd (orbit next advance (Z.to_nat N) y w)) /\
    loop_contents fft2_abs NRMSE PSNR SSIM logPi x
                  (fun k => fst (orbit next advance k y w))
                  (Z.to_nat burnin) (Z.to_nat step) (Z.to_nat N) st.
Proof.
  intros Hspec Hb Hstep. unfold Sampler.sampling_loop. rewrite range_unfold.
  replace (Z.to_nat (N - 0)) with (Z.to_nat N) by lia.
  destruct (loop_contents_range (Z.to_nat burnin) (Z.to_nat step) y w (Z.to_nat N)
              Hspec ltac:(lia) 0%nat (Sampler.init_state y))
    as (st & Hrun & Hinv).
  - reflexivity.
  - intros _. cbn. repeat split.
  - intros Hc. lia.
  - rewrite !Z2Nat.id in Hrun by lia.
    exists st. split; [ exact Hrun | ]. apply Hinv. lia.
Qed.

(** For a kernel that returns, with a burn-in [b < N] and a thinning step
    [q > 0]: after a run of [N] iterations the current state is the one
    reached after [N] transitions, the log-posterior series holds the
    log-posterior of the states reached after [b+2], ..., [N]
    transitions, in that order, and the trace holds the states reached
    after [b+1+q], [b+1+2q], ... transitions, in that order. *)
Theorem sampling_loop_trace_contents (burnin step N : Z) (y : T) (w : World) :
  (forall X w, kernel X w = Ok (next X w) (advance w)) ->
  (0 <= burnin < N)%Z -> (0 < step)%Z ->
  let b := Z.to_nat burnin in
  let q := Z.to_nat step in
  let state := fun k => fst (orbit next advance k y w) in
  exists st,
    Sampler.sampling_loop kernel fft2_abs NRMSE PSNR SSIM logPi x init_extra thin_extra
                          burnin step N y w
      = Ok st (snd (orbit next advance (Z.to_nat N) y w)) /\
    Sampler.X st = state (Z.to_nat N) /\
    Sampler.log_pi_trace st
      = map (fun k => logPi (state (b + 2 + k)%nat)) (seq 0 (Z.to_nat N - b - 1)) /\
    Sampler.MC_X st
      = map (fun k => state (b + 1 + (k + 1) * q)%nat) (seq 0 ((Z.to_nat N - b - 1) / q)).
Proof.
  intros Hspec Hb Hstep b q state.
  destruct (sampling_loop_contents burnin step N y w Hspec Hb Hstep)
    as (st & Hrun & HX & ps & _ & _ & _ & _ & _ & _ & _ & Hl & Hm).
  exists st. repeat split; assumption.
Qed.

(** Under the same conditions both accumulators are built from the state
    reached after [b+1] transitions (resp. its transform) and updated
    with the states reached after [b+2], ..., [N] transitions, in that
    order, and the k-th entry of each metric series is the metric of the
    mean of the accumulator after its k-th update. *)
Theorem sampling_loop_accumulator_contents (burnin step N : Z) (y : T) (w : World) :
  (forall X w, kernel X w = Ok (next X w) (advance w)) ->
  (0 <= burnin < N)%Z -> (0 < step)%Z ->
  let b := Z.to_nat burnin in
  let P := (Z.to_nat N - b - 1)%nat in
  let state := fun k => fst (orbit next advance k y w) in
  let later := fun k => state (b + 2 + k)%nat in
  let acc := accumulated (state (b + 1)%nat) later in
  exists st w' ps,
    Sampler.sampling_loop kernel fft2_abs NRMSE PSNR SSIM logPi x init_extra thin_extra
                          burnin step N y w = Ok st w' /\
    Sampler.post st = Some ps /\
    Sampler.post_meanvar ps = acc P /\
    Sampler.absfouriercoeff ps
      = accumulated (fft2_abs (state (b + 1)%nat)) (fun k => fft2_abs (later k)) P /\
    Sampler.nrmse_values st = map (fun k => NRMSE x (get_mean (acc (Datatypes.S k)))) (seq 0 P) /\
    Sampler.psnr_values st = map (fun k => PSNR x (get_mean (acc (Datatypes.S k)))) (seq 0 P) /\
    Sampler.ssim_values st = map (fun k => SSIM x (get_mean (acc (Datatypes.S k)))) (seq 0 P).
Proof.
  intros Hspec Hb Hstep b P state later acc.
  destruct (sampling_loop_contents burnin step N y w Hspec Hb Hstep)
    as (st & Hrun & HX & ps & Hps & Hpm & Haf & _ & Hn & Hp & Hs & _).
  exists st, (snd (orbit next advance (Z.to_nat N) y w)), ps.
  repeat split; assumption.
Qed.

End ContentsLoop.

Lemma sampling_loop_trace_contents_witness :
  ((0 <= 1 < 6)%Z /\ (0 < 2)%Z) /\
  exists st,
    Fixture.xrun 1 2 6
      = Ok st (snd (orbit blowup_next (fun w => ticked (drew w)) 6 (Fixture.Fin 0) Fixture.start)) /\
    Sampler.MC_X st
      = map (fun k => fst (orbit blowup_next (fun w => ticked (drew w))
                             (1 + 1 + (k + 1) * 2) (Fixture.Fin 0) Fixture.start))
            (seq 0 ((6 - 1 - 1) / 2)).
Proof.
  split; [ lia | ].
  destruct (sampling_loop_trace_contents (Hops:=Fixture.XTensorOps) Fixture.blowup_kernel
              blowup_next (fun w => ticked (drew w)) (fun X => X)
              (fun _ m => m) (fun _ m => m) (fun _ m => m) (fun X => X) (Fixture.Fin 0)
              (fun _ => tt) (fun u _ => u) 1 2 6 (Fixture.Fin 0) Fixture.start
              ltac:(intros X w; reflexivity) ltac:(lia) ltac:(lia))
    as (st & Hrun & _ & _ & Hm).
  exists st. split; [ exact Hrun | exact Hm ].
Defined.

Lemma sampling_loop_accumulator_contents_witness :
  ((0 <= 1 < 6)%Z /\ (0 < 2)%Z) /\
  exists st w' ps,
    Fixture.xrun 1 2 6 = Ok st w' /\
    Sampler.post st = Some ps /\
    Sampler.post_meanvar ps
      = accumulated (Hops:=Fixture.XTensorOps)
          (fst (orbit blowup_next (fun w => ticked (drew w)) (1 + 1) (Fixture.Fin 0) Fixture.start))
          (fun k => fst (orbit blowup_next (fun w => ticked (drew w)) (1 + 2 + k)
                           (Fixture.Fin 0) Fixture.start))
          (6 - 1 - 1).
Proof.
  split; [ lia | ].
  destruct (sampling_loop_accumulator_contents (Hops:=Fixture.XTensorOps) Fixture.blowup_kernel
              blowup_next (fun w => ticked (drew w)) (fun X => X)
              (fun _ m => m) (fun _ m => m) (fun _ m => m) (fun X => X) (Fixture.Fin 0)
              (fun _ => tt) (fun u _ => u) 1 2 6 (Fixture.Fin 0) Fixture.start
              ltac:(intros X w; reflexivity) ltac:(lia) ltac:(lia))
    as (st & w' & ps & Hrun & Hps & Hpm & _).
  exists st, w', ps. repeat split; assumption.
Defined.

(** ** Runs at the edges of the parameters *)

Section EdgeRuns.
Context {Idx G : Type}.
Variable E : sampling_tools Idx G.
Variable y : Idx -> R.
Variable sigma : R.
Variable x : Idx -> R.
Variable randn : nat -> (Idx -> R).
Local Open Scope Z_scope.

(** If the burn-in count is not below the number of iterations, the
    proximal Langevin run ends without accumulators ([post_meanvar] and
    [absfouriercoeff] are never bound) and with empty series and trace. *)
Theorem MYULA_burnin_never_reached (maxit burnin n_samples : Z) (w : World) :
  (0 <= AAT_norm E)%R ->
  0 <= maxit <= burnin ->
  exists st w',
    MYULA_sampling E y sigma x randn maxit burnin n_samples w = Ok st w' /\
    Sampler.post st = None /\
    Sampler.nrmse_values st = [] /\ Sampler.psnr_values st = [] /\
    Sampler.ssim_values st = [] /\ Sampler.log_pi_trace st = [] /\
    Sampler.MC_X st = [].
Proof.
  intros HA Hm. unfold MYULA_sampling.
  destruct (MYULA_loop_counts E y sigma x randn burnin (thinning_step maxit n_samples)
              maxit w HA ltac:(lia) ltac:(lia)) as (st & Hrun & Hinv).
  exists st. eexists. split; [ exact Hrun | ].
  unfold loop_counts in Hinv.
  destruct (Z.leb_spec maxit burnin); [ exact Hinv | lia ].
Qed.

(** If more samples are wanted than there are iterations, the thinning
    step is zero and no state is ever retained: the trace of the proximal
    Langevin run is empty. *)
Theorem MYULA_zero_thinning_step (maxit burnin n_samples : Z) (w : World) :
  (0 <= AAT_norm E)%R ->
  0 <= burnin ->
  0 <= maxit < n_samples ->
  thinning_step maxit n_samples = 0 /\
  exists st w',
    MYULA_sampling E y sigma x randn maxit burnin n_samples w = Ok st w' /\
    Sampler.MC_X st = [].
Proof.
  intros HA Hb Hn.
  assert (Hstep : thinning_step maxit n_samples = 0).
  { unfold thinning_step, int64_div. apply Z.quot_small. lia. }
  split; [ exact Hstep | ].
  unfold MYULA_sampling. rewrite Hstep.
  destruct (MYULA_loop_counts E y sigma x randn burnin 0 maxit w HA Hb ltac:(lia))
    as (st & Hrun & Hinv).
  exists st. eexists. split; [ exact Hrun | ].
  unfold loop_counts in Hinv.
  destruct (Z.leb_spec maxit burnin).
  - tauto.
  - destruct Hinv as (ps & _ & _ & _ & _ & _ & _ & _ & _ & Hoff).
    apply Hoff. lia.
Qed.

(** In the SK-ROCK run with [0 < n_samples <= maxit] the trace has at
    least [n_samples - 1] and fewer than [2 n_samples] entries. *)
Theorem SKROCK_trace_bounds
    (maxit burnin n_samples s : Z) (eta dt_perc : R) (w : World) :
  1 <= s -> (0 <= dtSKROCK (L E sigma) s eta dt_perc)%R ->
  0 <= burnin ->
  0 < n_samples <= maxit ->
  exists st w',
    SKROCK_sampling E y sigma x randn maxit burnin n_samples s eta dt_perc w = Ok st w' /\
    n_samples - 1 <= Z.of_nat (length (Sampler.MC_X st)) < 2 * n_samples.
Proof.
  intros Hs Hdt Hb Hn. unfold SKROCK_sampling.
  assert (Hstep : thinning_step maxit n_samples = maxit / n_samples)
    by (apply thinning_step_floor; lia).
  destruct (SKROCK_loop_counts E y sigma x randn s eta dt_perc burnin
              (thinning_step maxit n_samples) (maxit + burnin) w Hs Hdt Hb ltac:(lia))
    as (st & Hrun & Hinv).
  exists st. eexists. split; [ exact Hrun | ].
  unfold loop_counts in Hinv.
  destruct (Z.leb_spec (maxit + burnin) burnin); [ lia | ].
  destruct Hinv as (ps & _ & _ & _ & _ & _ & _ & _ & Hthin & _).
  assert (Hq : 1 <= maxit / n_samples) by (apply Z.div_le_lower_bound; lia).
  destruct (Hthin ltac:(lia)) as [Hlen _].
  rewrite Hlen, Hstep.
  replace (maxit + burnin - burnin - 1) with (maxit - 1) by lia.
  pose proof (Z.div_mod maxit n_samples ltac:(lia)) as Hdm.
  pose proof (Z.mod_pos_bound maxit n_samples ltac:(lia)) as Hmb.
  split.
  - apply Z.div_le_lower_bound; [ lia | ]. nia.
  - apply Z.div_lt_upper_bound; [ lia | ]. nia.
Qed.

(** A proximal Langevin run of [maxit] iterations draws [maxit] noise
    arrays and evaluates the posterior gradient [maxit] times; an SK-ROCK
    run with [s] stages makes [maxit + burnin] draws and
    [(maxit + burnin) * s] gradient evaluations. *)
Theorem sampling_cost
    (maxit burnin n_samples s : Z) (eta dt_perc : R) (w : World) :
  (0 <= AAT_norm E)%R ->
  0 <= burnin -> 0 <= maxit ->
  (exists st w',
     MYULA_sampling E y sigma x randn maxit burnin n_samples w = Ok st w' /\
     rng_draws w' = (rng_draws w + Z.to_nat maxit)%nat /\
     grad_evals w' = (grad_evals w + Z.to_nat maxit)%nat) /\
  (1 <= s -> (0 <= dtSKROCK (L E sigma) s eta dt_perc)%R ->
   exists st w',
     SKROCK_sampling E y sigma x randn maxit burnin n_samples s eta dt_perc w = Ok st w' /\
     rng_draws w' = (rng_draws w + Z.to_nat (maxit + burnin))%nat /\
     grad_evals w' = (grad_evals w + Z.to_nat (maxit + burnin) * Z.to_nat s)%nat).
Proof.
  intros HA Hb Hm. split.
  - unfold MYULA_sampling.
    destruct (MYULA_loop_counts E y sigma x randn burnin (thinning_step maxit n_samples)
                maxit w HA Hb Hm) as (st & Hrun & _).
    exists st. eexists. split; [ exact Hrun | ]. split; reflexivity.
  - intros Hs Hdt. unfold SKROCK_sampling.
    destruct (SKROCK_loop_counts E y sigma x randn s eta dt_perc burnin
                (thinning_step maxit n_samples) (maxit + burnin) w Hs Hdt Hb ltac:(lia))
      as (st & Hrun & _).
    exists st. eexists. split; [ exact Hrun | ]. split; reflexivity.
Qed.

End EdgeRuns.

(** ** Which noise arrays a run reads *)

Section ReplayGeneric.
Context {T S Ex : Type} {Hops : TensorOps T}.
Variables k1 k2 : T -> M T.
Variable agree : nat -> Prop.
Hypothesis same : forall X w, agree (rng_draws w) -> k1 X w = k2 X w.
Hypothesis one_draw : forall X w X' w', k1 X w = Ok X' w' -> rng_draws w' = Datatypes.S (rng_draws w).
Variable fft2_abs : T -> T.
Variables NRMSE PSNR SSIM : T -> T -> S.
Variable logPi : T -> S.
Variable x : T.
Variable init_extra : T -> Ex.
Variable thin_extra : Ex -> T -> Ex.
Variables burnin step : Z.

Lemma body_same (i : Z) (st : Sampler.loop_state) (w : World) :
  agree (rng_draws w) ->
  Sampler.body k1 fft2_abs NRMSE PSNR SSIM logPi x init_extra thin_extra burnin step i st w
  = Sampler.body k2 fft2_abs NRMSE PSNR SSIM logPi x init_extra thin_extra burnin step i st w.
Proof.
  intros Ha. unfold Sampler.body, bind. rewrite (same _ _ Ha). reflexivity.
Qed.

Lemma body_one_draw (i : Z) (st st' : Sampler.loop_state) (w w' : World) :
  Sampler.body k1 fft2_abs NRMSE PSNR SSIM logPi x init_extra thin_extra burnin step i st w
    = Ok st' w' ->
  rng_draws w' = Datatypes.S (rng_draws w).
Proof.
  unfold Sampler.body, bind.
  destruct (k1 (Sampler.X st) w) as [X' w1 | e] eqn:Hk; [ | discriminate ].
  pose proof (one_draw _ _ _ _ Hk) as Hd.
  destruct (i =? burnin)%Z.
  - unfold ret. intros Heq. injection Heq as _ Hw. subst w'. exact Hd.
  - destruct (i >? burnin)%Z.
    + destruct (Sampler.post st) as [ps | ]; [ | discriminate ].
      destruct (Sampler.count ps =? step - 1)%Z;
        unfold ret; intros Heq; injection Heq as _ Hw; subst w'; exact Hd.
    + unfold ret. intros Heq. injection Heq as _ Hw. subst w'. exact Hd.
Qed.

Lemma loop_same (l : list Z) : forall (st : Sampler.loop_state) (w : World),
  (forall j, (rng_draws w <= j < rng_draws w + length l)%nat -> agree j) ->
  for_loop l (Sampler.body k1 fft2_abs NRMSE PSNR SSIM logPi x init_extra thin_extra
                           burnin step) st w
  = for_loop l (Sampler.body k2 fft2_abs NRMSE PSNR SSIM logPi x init_extra thin_extra
                             burnin step) st w.
Proof.
  induction l as [ | i l IH ]; intros st w Hag.
  - reflexivity.
  - cbn [for_loop length] in *. unfold bind.
    rewrite <- body_same by (apply Hag; lia).
    destruct (Sampler.body k1 fft2_abs NRMSE PSNR SSIM logPi x init_extra thin_extra
                           burnin step i st w) as [st1 w1 | e] eqn:Hb; [ | reflexivity ].
    apply IH. intros j Hj. apply Hag.
    rewrite (body_one_draw _ _ _ _ _ Hb) in Hj. lia.
Qed.

End ReplayGeneric.

Section Replay.
Context {Idx G : Type}.
Variable E : sampling_tools Idx G.
Variable y : Idx -> R.
Variable sigma : R.
Variable x : Idx -> R.
Variables randn randn' : nat -> (Idx -> R).

Lemma ULA_kernel_same_draw (g : (Idx -> R) -> (Idx -> R)) (X : Idx -> R) (d : R) (w : World) :
  randn (rng_draws w) = randn' (rng_draws w) ->
  ULA_kernel randn g X d w = ULA_kernel randn' g X d w.
Proof.
  intros Hs. unfold ULA_kernel, bind, eval_grad, randn_like.
  destruct (math_sqrt (2 * d) (ticked w)) as [r w1 | e] eqn:Hsq; [ | reflexivity ].
  assert (Hw : w1 = ticked w).
  { unfold math_sqrt in Hsq. destruct (Rlt_dec (2 * d) 0); [ discriminate | ].
    unfold ret in Hsq. injection Hsq as _ Hw. symmetry. exact Hw. }
  subst w1. cbn [ticked rng_draws]. rewrite Hs. reflexivity.
Qed.

Lemma ULA_kernel_one_draw (g : (Idx -> R) -> (Idx -> R)) (X X' : Idx -> R) (d : R)
    (w w' : World) :
  ULA_kernel randn g X d w = Ok X' w' -> rng_draws w' = Datatypes.S (rng_draws w).
Proof.
  destruct (Rle_lt_dec 0 d) as [Hpos | Hneg].
  - rewrite ULA_kernel_returns by assumption. intros Heq. injection Heq as _ Hw.
    subst w'. reflexivity.
  - rewrite ULA_kernel_raises by assumption. discriminate.
Qed.

Lemma SKROCK_kernel_same_draw (X : Idx -> R) (Lip : R) (s : Z) (eta alpha : R)
    (gradU : (Idx -> R) -> (Idx -> R)) (w : World) :
  randn (rng_draws w) = randn' (rng_draws w) ->
  SKROCK_kernel randn X Lip s eta alpha gradU w
  = SKROCK_kernel randn' X Lip s eta alpha gradU w.
Proof.
  intros Hs. destruct (Rle_lt_dec 0 (dtSKROCK Lip s eta alpha)) as [Hpos | Hneg].
  - rewrite !SKROCK_kernel_first_stage by assumption. rewrite Hs. reflexivity.
  - rewrite !SKROCK_kernel_raises by assumption. reflexivity.
Qed.

Lemma SKROCK_kernel_one_draw (X X' : Idx -> R) (Lip : R) (s : Z) (eta alpha : R)
    (gradU : (Idx -> R) -> (Idx -> R)) (w w' : World) :
  SKROCK_kernel randn X Lip s eta alpha gradU w = Ok X' w' ->
  rng_draws w' = Datatypes.S (rng_draws w).
Proof.
  destruct (Rle_lt_dec 0 (dtSKROCK Lip s eta alpha)) as [Hpos | Hneg].
  - rewrite SKROCK_kernel_first_stage by assumption.
    match goal with
    | |- bind (for_loop ?l ?f ?st0) _ ?w0 = _ -> _ =>
        destruct (stages_keep_generator Lip s eta alpha gradU l st0 w0) as [st1 Hst]
    end.
    rewrite (bind_ok _ _ _ _ _ Hst). unfold ret. intros Heq. injection Heq as _ Hw.
    subst w'. reflexivity.
  - rewrite SKROCK_kernel_raises by assumption. discriminate.
Qed.

(** The proximal Langevin run uses the noise arrays of the generator with
    indices from the draw count at its start up to that count plus
    [maxit], one per iteration: two generators that agree on these
    arrays give the same outcome (states, accumulators, series, trace, or
    exception). *)
Theorem MYULA_sampling_replay (maxit burnin n_samples : Z) (w : World) :
  (forall j, (rng_draws w <= j < rng_draws w + Z.to_nat maxit)%nat -> randn j = randn' j) ->
  MYULA_sampling E y sigma x randn maxit burnin n_samples w
  = MYULA_sampling E y sigma x randn' maxit burnin n_samples w.
Proof.
  intros Hag. unfold MYULA_sampling, MYULA_loop, MYULA_body.
  apply (loop_same _ _ (fun j => randn j = randn' j)).
  - intros X w1 Hj. apply ULA_kernel_same_draw, Hj.
  - intros X w1 X' w' Hk. apply (ULA_kernel_one_draw _ _ _ _ _ _ Hk).
  - intros j Hj. apply Hag. unfold range in Hj.
    rewrite length_map, length_seq in Hj. lia.
Qed.

(** Likewise the SK-ROCK run uses one noise array per iteration, with
    indices from the draw count at its start up to that count plus
    [maxit + burnin]. *)
Theorem SKROCK_sampling_replay
    (maxit burnin n_samples s : Z) (eta dt_perc : R) (w : World) :
  (forall j, (rng_draws w <= j < rng_draws w + Z.to_nat (maxit + burnin))%nat ->
             randn j = randn' j) ->
  SKROCK_sampling E y sigma x randn maxit burnin n_samples s eta dt_perc w
  = SKROCK_sampling E y sigma x randn' maxit burnin n_samples s eta dt_perc w.
Proof.
  intros Hag. unfold SKROCK_sampling, SKROCK_loop, SKROCK_body.
  apply (loop_same _ _ (fun j => randn j = randn' j)).
  - intros X w1 Hj. apply SKROCK_kernel_same_draw, Hj.
  - intros X w1 X' w' Hk. apply (SKROCK_kernel_one_draw _ _ _ _ _ _ _ _ _ Hk).
  - intros j Hj. apply Hag. unfold range in Hj.
    rewrite length_map, length_seq in Hj. lia.
Qed.

End Replay.

Lemma MYULA_sampling_replay_witness :
  MYULA_sampling Fixture.tools (Fixture.const 0) 1 (Fixture.const 0) Fixture.still
                 4 1 2 Fixture.start
  = MYULA_sampling Fixture.tools (Fixture.const 0) 1 (Fixture.const 0) late_noise
                   4 1 2 Fixture.start.
Proof.
  apply (MYULA_sampling_replay Fixture.tools (Fixture.const 0) 1 (Fixture.const 0)
           Fixture.still late_noise 4 1 2 Fixture.start).
  intros j Hj. cbn in Hj. unfold late_noise, Fixture.still.
  destruct (Nat.ltb_spec j 4); [ reflexivity | lia ].
Defined.

Lemma SKROCK_sampling_replay_witness :
  SKROCK_sampling Fixture.tools (Fixture.const 0) 1 (Fixture.const 0) Fixture.still
                  3 1 2 10 0.05 0.99 Fixture.start
  = SKROCK_sampling Fixture.tools (Fixture.const 0) 1 (Fixture.const 0) late_noise
                    3 1 2 10 0.05 0.99 Fixture.start.
Proof.
  apply (SKROCK_sampling_replay Fixture.tools (Fixture.const 0) 1 (Fixture.const 0)
           Fixture.still late_noise 3 1 2 10 0.05 0.99 Fixture.start).
  intros j Hj. cbn in Hj. unfold late_noise, Fixture.still.
  destruct (Nat.ltb_spec j 4); [ reflexivity | lia ].
Defined.

(** ** The constants of the drivers *)

Section StepSizes.
Context {Idx G : Type}.
Variable E : sampling_tools Idx G.
Variable y : Idx -> R.
Variable sigma : R.
Variable x : Idx -> R.
Variable randn : nat -> (Idx -> R).
Local Open Scope R_scope.

Lemma L_y_pos : 0 < AAT_norm E -> sigma <> 0 -> 0 < L_y E sigma.
Proof.
  intros HA Hs. unfold L_y. apply Rdiv_lt_0_compat; [ assumption | ].
  assert (0 < sigma * sigma) by nra. simpl. nra.
Qed.

Lemma lambd_frac_value : lambd_frac = 99 / 100.
Proof. unfold lambd_frac. lra. Qed.

Lemma lambd_closed : 0 < L_y E sigma -> lambd E sigma = 99 / 100 / L_y E sigma.
Proof.
  intros Hy. unfold lambd, lambda_prox. rewrite lambd_frac_value. field. lra.
Qed.

Lemma L_closed : 0 < L_y E sigma -> L E sigma = 199 / 99 * L_y E sigma.
Proof.
  intros Hy. unfold L, L_g. rewrite (lambd_closed Hy). field. lra.
Qed.

Lemma L_pos : 0 < AAT_norm E -> sigma <> 0 -> 0 < L E sigma.
Proof.
  intros HA Hs. pose proof (L_y_pos HA Hs) as Hy. rewrite (L_closed Hy). lra.
Qed.

(** For a positive norm of [A AT] and a noise scale that is not zero:
    [lambd = 0.99 / L_y], the prior contributes [L_g = L_y / 0.99] to
    the Lipschitz constant, [L = (199/99) L_y], and the step of the
    proximal Langevin driver is [delta = 99 / (199 L_y)], positive and
    below both [1 / L_y] and [2 / L]. *)
Theorem MYULA_step_size :
  0 < AAT_norm E -> sigma <> 0 ->
  0 < L_y E sigma /\
  lambd E sigma = 0.99 / L_y E sigma /\
  L_g E sigma = L_y E sigma / 0.99 /\
  L E sigma = 199 / 99 * L_y E sigma /\
  delta E sigma = 99 / (199 * L_y E sigma) /\
  0 < delta E sigma /\
  delta E sigma < 1 / L_y E sigma /\
  delta E sigma < 2 / L E sigma.
Proof.
  intros HA Hs.
  pose proof (L_y_pos HA Hs) as Hy.
  pose proof (lambd_closed Hy) as Hl.
  pose proof (L_closed Hy) as HL.
  assert (Hiy : 0 < / L_y E sigma) by (apply Rinv_0_lt_compat; assumption).
  assert (Hd : delta E sigma = 99 / (199 * L_y E sigma)).
  { unfold delta. rewrite HL. field. lra. }
  assert (Hd' : delta E sigma = 99 / 199 * / L_y E sigma).
  { rewrite Hd. field. lra. }
  split; [ exact Hy | ].
  split; [ rewrite Hl; replace 0.99 with (99 / 100) by lra; reflexivity | ].
  split; [ unfold L_g; rewrite Hl; replace 0.99 with (99 / 100) by lra; field; lra | ].
  split; [ exact HL | ]. split; [ exact Hd | ].
  split; [ rewrite Hd'; nra | ].
  split; [ rewrite Hd'; unfold Rdiv; nra | ].
  replace (2 / L E sigma) with (2 * delta E sigma) by (unfold delta; field; rewrite HL; lra).
  rewrite Hd'. nra.
Qed.

(** With one stage, a positive norm of [A AT], a noise scale that is not
    zero, a positive step fraction and a damping in (0,1), the SK-ROCK run
    raises [ValueError] in its first iteration, whatever the burn-in and
    the thinning. *)
Theorem SKROCK_sampling_one_stage_fails
    (maxit burnin n_samples : Z) (eta dt_perc : R) (w : World) :
  0 < AAT_norm E -> sigma <> 0 ->
  0 < eta < 1 -> 0 < dt_perc ->
  (1 <= maxit + burnin)%Z ->
  SKROCK_sampling E y sigma x randn maxit burnin n_samples 1 eta dt_perc w
  = Raise ValueError.
Proof.
  intros HA Hs Heta Hdt HN.
  unfold SKROCK_sampling, SKROCK_loop. rewrite range_unfold.
  replace (Z.to_nat (maxit + burnin - 0))
    with (Datatypes.S (Z.to_nat (maxit + burnin - 1))) by lia.
  cbn [seq map for_loop]. apply bind_raise.
  unfold SKROCK_body. apply body_kernel_raises.
  apply SKROCK_kernel_raises. rewrite dtSKROCK_delta_s.
  apply delta_s_one_neg; try assumption. apply L_pos; assumption.
Qed.

(** If the penalty [tv] takes no negative value, the log-posterior that
    the loops report is never positive, and the negative log-likelihood
    [f] is never negative. *)
Theorem logPi_nonpositive (z : Idx -> R) :
  (forall g, 0 <= tv E g) ->
  0 <= f E y sigma z (A E) /\ logPi E y sigma z <= 0 /\ log_pi E y sigma z <= 0.
Proof.
  intros Htv.
  assert (Hf : 0 <= f E y sigma z (A E)).
  { unfold f. apply div_nonneg.
    - apply pow2_ge_0.
    - pose proof (pow2_ge_0 sigma). lra. }
  assert (Hg : 0 <= g_fun_theta E z).
  { unfold g_fun_theta, theta. apply Rmult_le_pos; [ lra | apply Htv ]. }
  split; [ exact Hf | ]. unfold logPi, log_pi. split; lra.
Qed.

End StepSizes.

Lemma MYULA_step_size_witness :
  ((0 < AAT_norm Fixture.tools)%R /\ (1 <> 0)%R) /\
  delta Fixture.tools 1 = (99 / (199 * L_y Fixture.tools 1))%R /\
  (delta Fixture.tools 1 < 2 / L Fixture.tools 1)%R.
Proof.
  assert (HA : (0 < AAT_norm Fixture.tools)%R) by (cbn; lra).
  assert (Hs : (1 <> 0)%R) by lra.
  split; [ split; assumption | ].
  destruct (MYULA_step_size Fixture.tools 1 HA Hs) as (_ & _ & _ & _ & Hd & _ & _ & Hb).
  split; assumption.
Defined.

Lemma SKROCK_sampling_one_stage_fails_witness :
  SKROCK_sampling Fixture.tools (Fixture.const 0) 1 (Fixture.const 0) Fixture.still
                  SKROCK.maxit SKROCK.burnin SKROCK.n_samples 1 SKROCK.eta SKROCK.dt_perc
                  Fixture.start
  = Raise ValueError.
Proof.
  apply (SKROCK_sampling_one_stage_fails Fixture.tools (Fixture.const 0) 1 (Fixture.const 0)
           Fixture.still SKROCK.maxit SKROCK.burnin SKROCK.n_samples SKROCK.eta
           SKROCK.dt_perc Fixture.start).
  - cbn. lra.
  - lra.
  - unfold SKROCK.eta. lra.
  - unfold SKROCK.dt_perc. lra.
  - vm_compute. discriminate.
Defined.

Lemma logPi_nonpositive_witness :
  (forall g : R, (0 <= tv Fixture.tools g)%R) /\
  (logPi Fixture.tools (Fixture.const 0) 1 Fixture.edge <= 0)%R.
Proof.
  assert (Htv : forall g : R, (0 <= tv Fixture.tools g)%R) by (intros g; apply Rabs_pos).
  split; [ exact Htv | ].
  apply (logPi_nonpositive Fixture.tools (Fixture.const 0) 1 Fixture.edge Htv).
Defined.

(** ** Instances for the runs at the edges *)

Lemma fixture_step_nonneg :
  (0 <= dtSKROCK (L Fixture.tools 1) 10 0.05 0.99)%R.
Proof.
  rewrite dtSKROCK_delta_s. apply delta_s_nonneg; [ lia | lra | lra | ].
  apply L_pos; [ cbn; lra | lra ].
Qed.

(** An instance: two iterations with a burn-in of five. *)
Lemma MYULA_burnin_never_reached_witness :
  exists st w',
    MYULA_sampling Fixture.tools (Fixture.const 0) 1 (Fixture.const 0) Fixture.still
                   2 5 1 Fixture.start = Ok st w' /\
    Sampler.post st = None /\
    Sampler.nrmse_values st = [] /\ Sampler.psnr_values st = [] /\
    Sampler.ssim_values st = [] /\ Sampler.log_pi_trace st = [] /\
    Sampler.MC_X st = [].
Proof.
  apply (MYULA_burnin_never_reached Fixture.tools (Fixture.const 0) 1 (Fixture.const 0)
           Fixture.still 2 5 1 Fixture.start fixture_norm_nonneg).
  lia.
Defined.

(** An instance: four iterations, nine samples wanted. *)
Lemma MYULA_zero_thinning_step_witness :
  thinning_step 4 9 = 0%Z /\
  exists st w',
    MYULA_sampling Fixture.tools (Fixture.const 0) 1 (Fixture.const 0) Fixture.still
                   4 1 9 Fixture.start = Ok st w' /\
    Sampler.MC_X st = [].
Proof.
  apply (MYULA_zero_thinning_step Fixture.tools (Fixture.const 0) 1 (Fixture.const 0)
           Fixture.still 4 1 9 Fixture.start fixture_norm_nonneg); lia.
Defined.

(** An instance: the values of the SK-ROCK notebook on the two-pixel
    problem. *)
Lemma SKROCK_trace_bounds_witness :
  exists st w',
    SKROCK_sampling Fixture.tools (Fixture.const 0) 1 (Fixture.const 0) Fixture.still
                    1000 300 500 10 0.05 0.99 Fixture.start = Ok st w' /\
    (500 - 1 <= Z.of_nat (length (Sampler.MC_X st)) < 2 * 500)%Z.
Proof.
  apply (SKROCK_trace_bounds Fixture.tools (Fixture.const 0) 1 (Fixture.const 0)
           Fixture.still 1000 300 500 10 0.05 0.99 Fixture.start);
    [ lia | exact fixture_step_nonneg | lia | lia ].
Defined.

(** An instance: four iterations of the proximal Langevin run. *)
Lemma sampling_cost_witness :
  exists st w',
    MYULA_sampling Fixture.tools (Fixture.const 0) 1 (Fixture.const 0) Fixture.still
                   4 1 2 Fixture.start = Ok st w' /\
    rng_draws w' = (rng_draws Fixture.start + Z.to_nat 4)%nat /\
    grad_evals w' = (grad_evals Fixture.start + Z.to_nat 4)%nat.
Proof.
  destruct (sampling_cost Fixture.tools (Fixture.const 0) 1 (Fixture.const 0)
              Fixture.still 4 1 2 10 0.05 0.99 Fixture.start fixture_norm_nonneg
              ltac:(lia) ltac:(lia)) as [H _].
  exact H.
Defined.

(** ** The linear test problem *)

Section LinearTest.
Context {Idx : Type}.
Variable randn : nat -> (Idx -> R).
Local Open Scope R_scope.
Variables (Lip : R) (s : Z) (eta alpha lam : R).
Variable gradU : (Idx -> R) -> (Idx -> R).
Variable X : Idx -> R.
Hypothesis linear : forall Y i, gradU Y i = lam * Y i.
Hypothesis eta_pos : 0 < eta.


Lemma T_s_w0_pos (j : Z) : 0 < T_s j (w0 s eta).
Proof. pose proof (cosh_ge_1 (IZR j * arccosh (w0 s eta))). unfold T_s. lra. Qed.

Lemma linear_stage (a : nat) (st : (Idx -> R) * (Idx -> R)) (w : World) :
  (forall i, fst st i = stage_amplification Lip s eta alpha lam (Datatypes.S a) * X i) ->
  (forall i, snd st i = stage_amplification Lip s eta alpha lam a * X i) ->
  exists st',
    stage Lip s eta alpha gradU (2 + Z.of_nat a) st w = Ok st' (ticked w) /\
    (forall i, fst st' i = stage_amplification Lip s eta alpha lam (Datatypes.S (Datatypes.S a)) * X i) /\
    (forall i, snd st' i = stage_amplification Lip s eta alpha lam (Datatypes.S a) * X i).
Proof.
  destruct st as [Xts Xm2]. cbn [fst snd]. intros H1 H2.
  eexists. split; [ reflexivity | ]. cbn [fst snd]. split; [ | exact H1 ].
  intros i. unfold tadd, smul. rewrite linear, H1, H2. unfold stage_amplification.
  replace (2 + Z.of_nat a)%Z with (Z.of_nat (Datatypes.S (Datatypes.S a))) by lia.
  replace (Z.of_nat (Datatypes.S (Datatypes.S a)) - 1)%Z
    with (Z.of_nat (Datatypes.S a)) by lia.
  pose proof (T_s_w0_pos (Z.of_nat (Datatypes.S (Datatypes.S a)))) as HT2.
  pose proof (T_s_w0_pos (Z.of_nat (Datatypes.S a))) as HT1.
  pose proof (T_s_w0_pos (Z.of_nat a)) as HT0.
  pose proof (T_s_recurrence (Z.of_nat (Datatypes.S a)) (w0 s eta)
                (w0_ge_1 s eta (Rlt_le _ _ eta_pos))) as Hrec.
  replace (Z.of_nat (Datatypes.S a) + 1)%Z
    with (Z.of_nat (Datatypes.S (Datatypes.S a))) in Hrec by lia.
  replace (Z.of_nat (Datatypes.S a) - 1)%Z with (Z.of_nat a) in Hrec by lia.
  change (cheb_poly (Datatypes.S (Datatypes.S a)) (stability_argument Lip s eta alpha lam))
    with (2 * (stability_argument Lip s eta alpha lam) * cheb_poly (Datatypes.S a) (stability_argument Lip s eta alpha lam) - cheb_poly a (stability_argument Lip s eta alpha lam)).
  set (T2 := T_s (Z.of_nat (Datatypes.S (Datatypes.S a))) (w0 s eta)) in *.
  set (T1 := T_s (Z.of_nat (Datatypes.S a)) (w0 s eta)) in *.
  set (T0 := T_s (Z.of_nat a) (w0 s eta)) in *.
  assert (HT0' : T0 = 2 * w0 s eta * T1 - T2) by lra.
  unfold stability_argument. rewrite HT0'. field. repeat split; lra.
Qed.

Lemma linear_stages (n : nat) : forall (a : nat) (st : (Idx -> R) * (Idx -> R)) (w : World),
  (forall i, fst st i = stage_amplification Lip s eta alpha lam (Datatypes.S a) * X i) ->
  (forall i, snd st i = stage_amplification Lip s eta alpha lam a * X i) ->
  exists st' w',
    for_loop (map (fun k => (2 + Z.of_nat k)%Z) (seq a n)) (stage Lip s eta alpha gradU) st w
      = Ok st' w' /\
    (forall i, fst st' i = stage_amplification Lip s eta alpha lam (Datatypes.S a + n) * X i).
Proof.
  induction n as [ | n IH ]; intros a st w H1 H2.
  - exists st, w. split; [ reflexivity | ]. rewrite Nat.add_0_r. exact H1.
  - cbn [seq map for_loop].
    destruct (linear_stage a st w H1 H2) as (st1 & Hrun & H1' & H2').
    rewrite (bind_ok _ _ _ _ _ Hrun).
    destruct (IH (Datatypes.S a) st1 (ticked w) H1' H2') as (st2 & w2 & Hrest & Hfin).
    exists st2, w2. split; [ exact Hrest | ].
    replace (Datatypes.S a + Datatypes.S n)%nat
      with (Datatypes.S (Datatypes.S a) + n)%nat by lia.
    exact Hfin.
Qed.

(** On the linear problem [gradU Y = lam * Y], with a stage count
    [s >= 1], a damping [eta > 0], a constant [L] that is not zero, a step
    that is not negative and a noise array that is zero, one transition of
    the kernel multiplies the state by the damped Chebyshev stability
    function [T_s(w0 - w1 * dt * lam) / T_s(w0)], where the numerator is
    the Chebyshev polynomial of degree [s]. *)
Theorem SKROCK_kernel_stability_function (w : World) :
  (1 <= s)%Z ->
  Lip <> 0 ->
  0 <= dtSKROCK Lip s eta alpha ->
  (forall i, randn (rng_draws w) i = 0) ->
  exists X' w',
    SKROCK_kernel randn X Lip s eta alpha gradU w = Ok X' w' /\
    forall i,
      X' i = cheb_poly (Z.to_nat s)
               (w0 s eta - w1 s eta * dtSKROCK Lip s eta alpha * lam)
             / T_s s (w0 s eta) * X i.
Proof.
  intros Hs _ Hdt Hzero.
  rewrite SKROCK_kernel_first_stage by assumption. rewrite range_unfold.
  edestruct (linear_stages (Z.to_nat (s + 1 - 2)) 0) as (st' & w' & Hrun & Hfin);
    [ | | rewrite (bind_ok _ _ _ _ _ Hrun) ].
  - intros i. cbn [fst]. unfold tadd, tsub, smul. rewrite linear.
    unfold tadd, smul. rewrite Hzero. unfold stage_amplification. cbn [cheb_poly Z.of_nat].
    pose proof (T_s_one (w0 s eta) (w0_ge_1 s eta (Rlt_le _ _ eta_pos))) as H1.
    change (Z.pos (Pos.of_succ_nat 0)) with 1%Z. rewrite H1.
    pose proof (w0_ge_1 s eta (Rlt_le _ _ eta_pos)). unfold stability_argument, mu1. field. lra.
  - intros i. cbn [snd]. unfold stage_amplification. cbn [cheb_poly Z.of_nat].
    pose proof (T_s_zero (w0 s eta)) as H0.
    rewrite H0. field.
  - exists (fst st'), w'. split; [ reflexivity | ].
    intros i. rewrite Hfin. unfold stage_amplification, stability_argument.
    replace (1 + Z.to_nat (s + 1 - 2))%nat with (Z.to_nat s) by lia.
    rewrite Z2Nat.id by lia. reflexivity.
Qed.

End LinearTest.

(** An instance: two stages on [gradU Y = 2 Y], from the edge image,
    with [eta = 0.05] and [L = 1]. *)
Lemma SKROCK_kernel_stability_function_witness :
  exists X' w',
    SKROCK_kernel Fixture.still Fixture.edge 1 2 0.05 0.99
                  (fun (Y : bool -> R) i => (2 * Y i)%R) Fixture.start = Ok X' w' /\
    forall i,
      X' i = (cheb_poly 2 (w0 2 0.05 - w1 2 0.05 * dtSKROCK 1 2 0.05 0.99 * 2)
              / T_s 2 (w0 2 0.05) * Fixture.edge i)%R.
Proof.
  apply (SKROCK_kernel_stability_function Fixture.still 1 2 0.05 0.99 2
           (fun (Y : bool -> R) i => (2 * Y i)%R) Fixture.edge
           ltac:(reflexivity) ltac:(lra) Fixture.start).
  - lia.
  - lra.
  - rewrite dtSKROCK_delta_s. apply delta_s_nonneg; [ lia | lra | lra | lra ].
  - intros i. reflexivity.
Defined.
